(** * PHARE: the fluid particle initializer

    A shallow embedding of
    [src/core/data/ions/particle_initializers/fluid_particle_initializer.h]:
    the constructor of [FluidParticleInitializer] and the three dimensional
    loaders [loadParticles1D_], [loadParticles2D_] and [loadParticles3D_],
    written as programs of a small state-and-outcome monad over the particle
    container, the random generator and a log of the accesses made to the
    profile functions.

    [double] is IEEE binary64 and is modelled by Rocq's primitive floats,
    which compute with the same format and rounding. *)

From Stdlib Require Import ZArith List Bool Lia.
From Stdlib Require Import QArith Qabs Qpower.
From Stdlib Require Import PrimFloat Uint63 FloatOps SpecFloat FloatAxioms.
Import ListNotations.

Local Open Scope Z_scope.

(** ** Machine numbers *)

Definition double := float.

(** [float] of the source (binary32); its values are carried, never computed
    with, so they are kept in the wider format. *)
Definition float32 := float.

(** Conversion to [uint32]: reduction modulo 2^32. *)
Definition uint32 (z : Z) : Z := z mod 2 ^ 32.

(** [static_cast<int32>] of an [uint32] value: two's complement wrap-around. *)
Definition static_cast_int32 (z : Z) : Z :=
  let u := z mod 2 ^ 32 in
  if u <? 2 ^ 31 then u else u - 2 ^ 32.

(** Implicit conversion of an [uint32] to [double] (exact: 2^32 < 2^53). *)
Definition double_of_uint32 (n : Z) : double :=
  PrimFloat.of_uint63 (Uint63.of_Z n).

(** [std::array<double, 3>] and [std::array<std::array<double, 3>, 3>]. *)
Definition vec3 : Type := double * double * double.
Definition basis3 : Type := vec3 * vec3 * vec3.

(** ** Collaborating types (declared outside this header) *)

Inductive Basis := Magnetic | Cartesian.

Inductive Direction := dirX | dirY | dirZ.

Inductive QtyCentering := primal | dual.

Record Point := { px : double; py : double; pz : double }.

(** [Particle<dimension>]: [iCell] and [delta] have one entry per dimension. *)
Record Particle := {
  weight : double;
  charge : double;
  iCell : list Z;
  delta : list float32;
  v : vec3
}.

(** The part of [GridLayout] the loaders use. *)
Record GridLayout := {
  dimension : nat;
  meshSize : list double;
  physicalStartIndex : QtyCentering -> Direction -> Z;
  physicalEndIndex : QtyCentering -> Direction -> Z;
  origin : Point;
  cellCenteredCoordinates : list Z -> list double
}.

(** [ScalarFunction<dim>] and [VectorFunction<dim>], applied to the
    coordinates that the call site passes. *)
Definition ScalarFunction := list double -> double.
Definition VectorFunction := list double -> vec3.

(** ** Outcomes *)

Inductive Profile := Density | BulkVelocity | ThermalVelocity | MagneticField.

(** What a run does to the profile pointers: [Dereference p null] is an
    evaluation of [*p_] ([null] tells whether the pointer was null),
    [Evaluate p coords] a call of the profile with these arguments. *)
Inductive Event :=
| Dereference (p : Profile) (null : bool)
| Evaluate (p : Profile) (coords : list double).

(** The errors of the specification's taxonomy. *)
Inductive Error := ConfigurationError | PhysicalValidityError | DegenerateFieldCondition.

(** A computation returns normally, leaves by an exception, or calls a
    profile through a reference bound to a null pointer. *)
Inductive Outcome (A : Type) :=
| Normal (a : A)
| Thrown (e : Error)
| NullCall (p : Profile).

Arguments Normal {A} a.
Arguments Thrown {A} e.
Arguments NullCall {A} p.

(** ** The functions the header only declares, and the standard generator *)

Record Runtime := {
  (** [std::mt19937_64]: its state, its seeding constructor *)
  generator : Type;
  mt19937_64 : Z -> generator;
  (** [std::uniform_real_distribution<float>(0., 1.)] applied to a generator:
      the value drawn and the advanced generator *)
  uniform_real_distribution : generator -> float32 * generator;
  (** [void maxwellianVelocity(V, Vth, generator, partVelocity)]: the
      generator is received by value, [partVelocity] is the result *)
  maxwellianVelocity : vec3 -> vec3 -> generator -> vec3;
  (** [void localMagneticBasis(B, basis)]: [basis] is the result *)
  localMagneticBasis : vec3 -> Outcome basis3;
  (** [basisTransform(basis, vec)] *)
  basisTransform : basis3 -> vec3 -> vec3
}.

(** ** The initializer *)

(** The members of the class; a [std::unique_ptr] is [None] when null. *)
Record FluidParticleInitializer := {
  density_ : option ScalarFunction;
  bulkVelocity_ : option VectorFunction;
  thermalVelocity_ : option VectorFunction;
  particleCharge_ : double;
  nbrParticlePerCell_ : Z;
  basis_ : Basis;
  magneticField_ : option VectorFunction
}.

(** The constructor: a member initializer list and an empty body. *)
Definition newFluidParticleInitializer
    (density : option ScalarFunction)
    (bulkVelocity thermalVelocity : option VectorFunction)
    (particleCharge : double) (nbrParticlesPerCell : Z)
    (basis : Basis) (magneticField : option VectorFunction)
  : Outcome FluidParticleInitializer :=
  Normal {| density_ := density;
            bulkVelocity_ := bulkVelocity;
            thermalVelocity_ := thermalVelocity;
            particleCharge_ := particleCharge;
            nbrParticlePerCell_ := uint32 nbrParticlesPerCell;
            basis_ := basis;
            magneticField_ := magneticField |}.

Definition is_magnetic (b : Basis) : bool :=
  match b with Magnetic => true | Cartesian => false end.

(** ** The declared functions, from their specification *)

Module Kernels.

Local Open Scope float_scope.

Section Sampler.

Variable generator : Type.

(** Modelled from the spec: the standard-normal deviates of
    [maxwellianVelocity], one per component, obtained by a Box-Muller
    transform of uniform draws taken from the function's own copy of the
    generator. The logarithm and the trigonometric functions of the
    transform belong to the C library, so the deviates enter as a function
    of that copy. *)
Variable normalDeviates : generator -> vec3.

(** Modelled from the spec: one component of [maxwellianVelocity], the
    deviate scaled by the thermal speed and shifted by the bulk velocity; a
    zero thermal speed yields the bulk velocity exactly. *)
Definition maxwellianComponent (Vi Vthi zi : double) : double :=
  if Vthi =? 0 then Vi else Vi + Vthi * zi.

(** Modelled from the spec: [maxwellianVelocity], whose body is in the
    absent implementation file. *)
Definition maxwellianVelocity (V Vth : vec3) (g : generator) : vec3 :=
  let '(V1, V2, V3) := V in
  let '(Vth1, Vth2, Vth3) := Vth in
  let '(z1, z2, z3) := normalDeviates g in
  (maxwellianComponent V1 Vth1 z1,
   maxwellianComponent V2 Vth2 z2,
   maxwellianComponent V3 Vth3 z3).

End Sampler.

Definition dot (a b : vec3) : double :=
  let '(a1, a2, a3) := a in
  let '(b1, b2, b3) := b in
  a1 * b1 + a2 * b2 + a3 * b3.

Definition norm (a : vec3) : double := PrimFloat.sqrt (dot a a).

Definition scale (k : double) (a : vec3) : vec3 :=
  let '(a1, a2, a3) := a in (k * a1, k * a2, k * a3).

Definition divide (a : vec3) (k : double) : vec3 :=
  let '(a1, a2, a3) := a in (a1 / k, a2 / k, a3 / k).

Definition plus (a b : vec3) : vec3 :=
  let '(a1, a2, a3) := a in
  let '(b1, b2, b3) := b in
  (a1 + b1, a2 + b2, a3 + b3).

Definition minus (a b : vec3) : vec3 :=
  let '(a1, a2, a3) := a in
  let '(b1, b2, b3) := b in
  (a1 - b1, a2 - b2, a3 - b3).

Definition cross (a b : vec3) : vec3 :=
  let '(a1, a2, a3) := a in
  let '(b1, b2, b3) := b in
  (a2 * b3 - a3 * b2, a3 * b1 - a1 * b3, a1 * b2 - a2 * b1).

(** Modelled from the spec: the Cartesian axis along which the unit vector
    [e1] has its component of smallest magnitude. *)
Definition referenceAxis (e1 : vec3) : vec3 :=
  let '(x, y, z) := e1 in
  if (PrimFloat.abs x <=? PrimFloat.abs y) && (PrimFloat.abs x <=? PrimFloat.abs z)
  then (1, 0, 0)
  else if PrimFloat.abs y <=? PrimFloat.abs z then (0, 1, 0)
  else (0, 0, 1).

(** Modelled from the spec: [localMagneticBasis], whose body is in the
    absent implementation file. A field of magnitude below [tolerance] is
    signalled, as section 4.2 words the failure condition
    ([Fallback.localMagneticBasis] is the builder with the condition
    resolved as section 7 words it); otherwise the first axis is the field
    direction, the second the normalised part of the reference axis
    orthogonal to it, the third their cross product. *)
Definition localMagneticBasis (tolerance : double) (B : vec3)
  : Outcome basis3 :=
  let b := norm B in
  if b <? tolerance then Thrown DegenerateFieldCondition
  else
    let e1 := divide B b in
    let a := referenceAxis e1 in
    let p := minus a (scale (dot a e1) e1) in
    let e2 := divide p (norm p) in
    Normal (e1, e2, cross e1 e2).

(** Modelled from the spec: [basisTransform], whose body is in the absent
    implementation file: [v1*e1 + v2*e2 + v3*e3]. *)
Definition basisTransform (basis : basis3) (vec : vec3) : vec3 :=
  let '(e1, e2, e3) := basis in
  let '(v1, v2, v3) := vec in
  plus (plus (scale v1 e1) (scale v2 e2)) (scale v3 e3).

End Kernels.

(** ** A runtime and inputs to run the loaders on *)

Module Sample.

(** A linear congruential generator stands for the Mersenne twister. *)
Definition next (g : Z) : Z :=
  (6364136223846793005 * g + 1442695040888963407) mod 2 ^ 64.

Definition uniform (g : Z) : float32 * Z :=
  let g' := next g in
  ((double_of_uint32 ((g' / 2 ^ 40) mod 2 ^ 24) / 16777216)%float, g').

Definition deviates (g : Z) : vec3 :=
  let '(a, g1) := uniform g in
  let '(b, g2) := uniform g1 in
  let '(c, _) := uniform g2 in
  ((a - 0.5)%float, (b - 0.5)%float, (c - 0.5)%float).

Definition tolerance : double := 0x1.5798ee2308c3ap-27%float.

Definition runtime : Runtime :=
  {| generator := Z;
     mt19937_64 := fun seed => seed mod 2 ^ 64;
     uniform_real_distribution := uniform;
     maxwellianVelocity := Kernels.maxwellianVelocity Z deviates;
     localMagneticBasis := Kernels.localMagneticBasis tolerance;
     basisTransform := Kernels.basisTransform |}.

(** A layout of [dim] dimensions with [n] physical cells of size 1 in each
    direction behind 5 ghost cells; the origin has [z = 7]. *)
Definition layout (dim : nat) (n : Z) : GridLayout :=
  {| dimension := dim;
     meshSize := repeat 1%float dim;
     physicalStartIndex := fun _ _ => 5;
     physicalEndIndex := fun _ _ => 5 + n;
     origin := {| px := 0%float; py := 0%float; pz := 7%float |};
     cellCenteredCoordinates :=
       map (fun i => (double_of_uint32 (i - 5) + 0.5)%float) |}.

Definition uniformDensity (n : double) : ScalarFunction := fun _ => n.

Definition uniformVector (a : vec3) : VectorFunction := fun _ => a.

Definition still : vec3 := (0%float, 0%float, 0%float).

Definition alongX : vec3 := (1%float, 0%float, 0%float).

(** An initializer of density [n], bulk velocity along x, no thermal speed
    and charge 1. *)
Definition initializer (n : double) (perCell : Z) (basis : Basis)
    (magneticField : option VectorFunction) : FluidParticleInitializer :=
  {| density_ := Some (uniformDensity n);
     bulkVelocity_ := Some (uniformVector alongX);
     thermalVelocity_ := Some (uniformVector still);
     particleCharge_ := 1%float;
     nbrParticlePerCell_ := perCell;
     basis_ := basis;
     magneticField_ := magneticField |}.

End Sample.

(** ** The loaders *)

Section Loaders.

Variable R : Runtime.

(** The state a load acts on: the caller's container, the local generator
    and the log of profile accesses. *)
Record LoadState := {
  particles : list Particle;
  gen : generator R;
  trace : list Event
}.

Definition Load (A : Type) : Type := LoadState -> Outcome A * LoadState.

Definition ret {A} (a : A) : Load A := fun s => (Normal a, s).

Definition bind {A B} (m : Load A) (k : A -> Load B) : Load B :=
  fun s =>
    match m s with
    | (Normal a, s') => k a s'
    | (Thrown e, s') => (Thrown e, s')
    | (NullCall p, s') => (NullCall p, s')
    end.

Notation "x <- m ;; k" := (bind m (fun x => k))
  (at level 100, m at next level, right associativity).
Notation "m ;; k" := (bind m (fun _ => k))
  (at level 100, right associativity).

Definition log (e : Event) : Load unit :=
  fun s => (Normal tt, {| particles := particles s; gen := gen s;
                          trace := trace s ++ [e] |}).

(** [particles.push_back(p)] *)
Definition push_back (p : Particle) : Load unit :=
  fun s => (Normal tt, {| particles := particles s ++ [p]; gen := gen s;
                          trace := trace s |}).

(** The generator as it stands, for a by-value argument. *)
Definition copy_generator : Load (generator R) :=
  fun s => (Normal (gen s), s).

(** [randPos(generator)]: the generator is taken by reference. *)
Definition randPos : Load float32 :=
  fun s =>
    let r := uniform_real_distribution R (gen s) in
    (Normal (fst r),
     {| particles := particles s; gen := snd r; trace := trace s |}).

(** The outcome of a function that does not touch the state. *)
Definition lift {A} (o : Outcome A) : Load A := fun s => (o, s).

(** [auto& r = *ptr_;]. The loaders bind their four references before the
    cell loops, whether or not the pointers are null. On a null
    [std::unique_ptr] the evaluation of [*ptr_] is undefined behaviour in
    C++: the model records it in the log ([Dereference p true]) and goes on
    with a reference that cannot be called (see [call]), which is one of the
    behaviours the program may show. What is proved of a run whose log
    holds such an entry is proved of this behaviour only. *)
Definition deref {F} (p : Profile) (ptr : option F) : Load (option F) :=
  log (Dereference p (match ptr with None => true | Some _ => false end)) ;;
  ret ptr.

(** [r(coords)] through such a reference. *)
Definition call {V} (p : Profile) (r : option (list double -> V))
    (coords : list double) : Load V :=
  match r with
  | Some f => log (Evaluate p coords) ;; ret (f coords)
  | None => lift (NullCall p)
  end.

(** [for (uint32 i = i0; i < i1; ++i)]: the indices visited, in order. *)
Definition index_range (i0 i1 : Z) : list Z :=
  map (fun k => i0 + Z.of_nat k) (seq 0 (Z.to_nat (i1 - i0))).

Fixpoint for_each {A} (l : list A) (body : A -> Load unit) : Load unit :=
  match l with
  | [] => ret tt
  | x :: l' => body x ;; for_each l' body
  end.

(** [for (uint32 ipart = 0; ipart < n; ++ipart)], whose body ignores [ipart]. *)
Fixpoint repeat_load (n : nat) (body : Load unit) : Load unit :=
  match n with
  | O => ret tt
  | S n' => body ;; repeat_load n' body
  end.

Variable self : FluidParticleInitializer.

(** [basis] is a local array that only the magnetic branch writes. *)
Definition load_basis (magneticField : option VectorFunction)
    (coords : list double) : Load (option basis3) :=
  if is_magnetic (basis_ self) then
    B <- call MagneticField magneticField coords ;;
    basis <- lift (localMagneticBasis R B) ;;
    ret (Some basis)
  else ret None.

(** The particle loop, the same in the three loaders but for the number of
    offsets drawn. *)
Fixpoint draw_delta (dim : nat) : Load (list float32) :=
  match dim with
  | O => ret []
  | S d => x <- randPos ;; xs <- draw_delta d ;; ret (x :: xs)
  end.

Definition rotate (basis : option basis3) (particleVelocity : vec3) : vec3 :=
  if is_magnetic (basis_ self) then
    match basis with
    | Some b => basisTransform R b particleVelocity
    | None => particleVelocity
    end
  else particleVelocity.

Definition load_particle (dim : nat) (V Vth : vec3) (basis : option basis3)
    (cellWeight : double) (cell : list Z) : Load unit :=
  g <- copy_generator ;;
  let particleVelocity := maxwellianVelocity R V Vth g in
  let particleVelocity := rotate basis particleVelocity in
  delta <- draw_delta dim ;;
  push_back {| weight := cellWeight;
               charge := particleCharge_ self;
               iCell := map static_cast_int32 cell;
               delta := delta;
               v := particleVelocity |}.

Definition cell_weight (n cellVolume : double) : double :=
  (n * cellVolume / double_of_uint32 (nbrParticlePerCell_ self))%float.

Definition zero : double := 0%float.

(** The body of the cell loop of [loadParticles1D_]. *)
Definition load_cell1D (layout : GridLayout) (cellVolume : double)
    (density : option ScalarFunction)
    (bulkVelocity thermalVelocity magneticField : option VectorFunction)
    (ix : Z) : Load unit :=
  let coord := cellCenteredCoordinates layout [ix] in
  let x := nth 0 coord zero in
  n <- call Density density [x] ;;
  V <- call BulkVelocity bulkVelocity [x] ;;
  Vth <- call ThermalVelocity thermalVelocity [x] ;;
  let cellWeight := cell_weight n cellVolume in
  basis <- load_basis magneticField [x] ;;
  repeat_load (Z.to_nat (nbrParticlePerCell_ self))
    (load_particle 1 V Vth basis cellWeight [ix]).

(** A load starts on the caller's container with a fresh generator. *)
Definition start (container : list Particle) (g : generator R) : LoadState :=
  {| particles := container; gen := g; trace := [] |}.

(** [randSeed] stands for the value [std::random_device] would deliver; the
    1D loader constructs the device and never reads it, its generator is
    [std::mt19937_64 generator(1)]. *)
Definition loadParticles1D_ (randSeed : Z) (layout : GridLayout)
    (container : list Particle) : Outcome unit * LoadState :=
  let dx := nth 0 (meshSize layout) zero in
  let ix0 := uint32 (physicalStartIndex layout primal dirX) in
  let ix1 := uint32 (physicalEndIndex layout primal dirX) in
  let cellVolume := dx in
  (density <- deref Density (density_ self) ;;
   bulkVelocity <- deref BulkVelocity (bulkVelocity_ self) ;;
   thermalVelocity <- deref ThermalVelocity (thermalVelocity_ self) ;;
   magneticField <- deref MagneticField (magneticField_ self) ;;
   for_each (index_range ix0 ix1)
     (load_cell1D layout cellVolume density bulkVelocity thermalVelocity
        magneticField))
    (start container (mt19937_64 R 1)).

(** The body of the innermost cell loop of [loadParticles2D_]. *)
Definition load_cell2D (layout : GridLayout) (cellVolume : double)
    (origin : Point) (density : option ScalarFunction)
    (bulkVelocity thermalVelocity magneticField : option VectorFunction)
    (ix iy : Z) : Load unit :=
  let coord := cellCenteredCoordinates layout [ix; iy] in
  let x := nth 0 coord zero in
  let y := nth 1 coord zero in
  n <- call Density density [x; y] ;;
  V <- call BulkVelocity bulkVelocity [x; y] ;;
  Vth <- call ThermalVelocity thermalVelocity [x; y] ;;
  let cellWeight := cell_weight n cellVolume in
  basis <- load_basis magneticField [x; y; pz origin] ;;
  repeat_load (Z.to_nat (nbrParticlePerCell_ self))
    (load_particle 2 V Vth basis cellWeight [ix; iy]).

(** The 2D loader: [std::mt19937_64 generator(randSeed())]. *)
Definition loadParticles2D_ (randSeed : Z) (layout : GridLayout)
    (container : list Particle) : Outcome unit * LoadState :=
  let dx := nth 0 (meshSize layout) zero in
  let dy := nth 1 (meshSize layout) zero in
  let ix0 := uint32 (physicalStartIndex layout primal dirX) in
  let ix1 := uint32 (physicalEndIndex layout primal dirX) in
  let iy0 := uint32 (physicalStartIndex layout primal dirY) in
  let iy1 := uint32 (physicalEndIndex layout primal dirY) in
  let cellVolume := (dx * dy)%float in
  let origin := origin layout in
  (density <- deref Density (density_ self) ;;
   bulkVelocity <- deref BulkVelocity (bulkVelocity_ self) ;;
   thermalVelocity <- deref ThermalVelocity (thermalVelocity_ self) ;;
   magneticField <- deref MagneticField (magneticField_ self) ;;
   for_each (index_range ix0 ix1) (fun ix =>
     for_each (index_range iy0 iy1)
       (load_cell2D layout cellVolume origin density bulkVelocity
          thermalVelocity magneticField ix)))
    (start container (mt19937_64 R randSeed)).

(** The body of the innermost cell loop of [loadParticles3D_]. *)
Definition load_cell3D (layout : GridLayout) (cellVolume : double)
    (density : option ScalarFunction)
    (bulkVelocity thermalVelocity magneticField : option VectorFunction)
    (ix iy iz : Z) : Load unit :=
  let coord := cellCenteredCoordinates layout [ix; iy; iz] in
  let x := nth 0 coord zero in
  let y := nth 1 coord zero in
  let z := nth 2 coord zero in
  n <- call Density density [x; y; z] ;;
  V <- call BulkVelocity bulkVelocity [x; y; z] ;;
  Vth <- call ThermalVelocity thermalVelocity [x; y; z] ;;
  let cellWeight := cell_weight n cellVolume in
  basis <- load_basis magneticField [x; y; z] ;;
  repeat_load (Z.to_nat (nbrParticlePerCell_ self))
    (load_particle 3 V Vth basis cellWeight [ix; iy; iz]).

(** The 3D loader: [std::mt19937_64 generator(randSeed())]. *)
Definition loadParticles3D_ (randSeed : Z) (layout : GridLayout)
    (container : list Particle) : Outcome unit * LoadState :=
  let dx := nth 0 (meshSize layout) zero in
  let dy := nth 1 (meshSize layout) zero in
  let dz := nth 2 (meshSize layout) zero in
  let ix0 := uint32 (physicalStartIndex layout primal dirX) in
  let ix1 := uint32 (physicalEndIndex layout primal dirX) in
  let iy0 := uint32 (physicalStartIndex layout primal dirY) in
  let iy1 := uint32 (physicalEndIndex layout primal dirY) in
  let iz0 := uint32 (physicalStartIndex layout primal dirZ) in
  let iz1 := uint32 (physicalEndIndex layout primal dirZ) in
  let cellVolume := (dx * dy * dz)%float in
  (density <- deref Density (density_ self) ;;
   bulkVelocity <- deref BulkVelocity (bulkVelocity_ self) ;;
   thermalVelocity <- deref ThermalVelocity (thermalVelocity_ self) ;;
   magneticField <- deref MagneticField (magneticField_ self) ;;
   for_each (index_range ix0 ix1) (fun ix =>
     for_each (index_range iy0 iy1) (fun iy =>
       for_each (index_range iz0 iz1)
         (load_cell3D layout cellVolume density bulkVelocity
            thermalVelocity magneticField ix iy))))
    (start container (mt19937_64 R randSeed)).

(** What the caller of a loader observes: how the call ended and the
    container. *)
Definition observed (r : Outcome unit * LoadState)
  : Outcome unit * list Particle :=
  (fst r, particles (snd r)).

(** [loadParticles]: the branch is chosen by [GridLayout::dimension]; for
    another dimension no branch is taken. *)
Definition loadParticles (randSeed : Z) (layout : GridLayout)
    (container : list Particle) : Outcome unit * list Particle :=
  match dimension layout with
  | 1%nat => observed (loadParticles1D_ randSeed layout container)
  | 2%nat => observed (loadParticles2D_ randSeed layout container)
  | 3%nat => observed (loadParticles3D_ randSeed layout container)
  | _ => (Normal tt, container)
  end.

(** ** What a run computes *)

Abbreviation N := (Z.to_nat (nbrParticlePerCell_ self)).

(** One draw of the uniform distribution: the generator after it and the
    value it delivers. *)
Definition advance (g : generator R) : generator R :=
  snd (uniform_real_distribution R g).

Definition offset (g : generator R) : float32 :=
  fst (uniform_real_distribution R g).

Fixpoint offsets (dim : nat) (g : generator R) : list float32 :=
  match dim with
  | O => []
  | S d => offset g :: offsets d (advance g)
  end.

Fixpoint advance_by (k : nat) (g : generator R) : generator R :=
  match k with
  | O => g
  | S k' => advance_by k' (advance g)
  end.

(** The particle pushed by one turn of the particle loop entered with
    generator [g]. *)
Definition new_particle (dim : nat) (V Vth : vec3) (basis : option basis3)
    (cellWeight : double) (cell : list Z) (g : generator R) : Particle :=
  {| weight := cellWeight;
     charge := particleCharge_ self;
     iCell := map static_cast_int32 cell;
     delta := offsets dim g;
     v := rotate basis (maxwellianVelocity R V Vth g) |}.

(** The particles pushed by [n] turns. *)
Fixpoint batch (dim : nat) (V Vth : vec3) (basis : option basis3)
    (cellWeight : double) (cell : list Z) (n : nat) (g : generator R)
  : list Particle :=
  match n with
  | O => []
  | S n' => new_particle dim V Vth basis cellWeight cell g
            :: batch dim V Vth basis cellWeight cell n' (advance_by dim g)
  end.

(** What the magnetic branch of a cell delivers for the magnetic-field
    reference [mf] and the coordinates passed to it. *)
Definition field_outcome (mf : option VectorFunction) (coords : list double)
  : Outcome (option basis3) :=
  if is_magnetic (basis_ self) then
    match mf with
    | Some f =>
        match localMagneticBasis R (f coords) with
        | Normal b => Normal (Some b)
        | Thrown e => Thrown e
        | NullCall p => NullCall p
        end
    | None => NullCall MagneticField
    end
  else Normal None.

Definition field_events (mf : option VectorFunction) (coords : list double)
  : list Event :=
  if is_magnetic (basis_ self) then
    match mf with
    | Some _ => [Evaluate MagneticField coords]
    | None => []
    end
  else [].

Definition cell_events (args : list double) : list Event :=
  [Evaluate Density args; Evaluate BulkVelocity args;
   Evaluate ThermalVelocity args].

(** The run of a cell whose three moment profiles are present: [dim]
    offsets per particle, [cell] the index tuple, [args] the coordinates
    given to the moment profiles, [bargs] those given to the magnetic
    field. *)
Definition cell_run (dim : nat) (cell : list Z) (args bargs : list double)
    (cellVolume : double) (d : ScalarFunction) (bv tv : VectorFunction)
    (mf : option VectorFunction) (s : LoadState)
  : Outcome unit * LoadState :=
  let tr := trace s ++ cell_events args ++ field_events mf bargs in
  match field_outcome mf bargs with
  | Normal basis =>
      (Normal tt,
       {| particles :=
            particles s
            ++ batch dim (bv args) (tv args) basis
                 (cell_weight (d args) cellVolume) cell N (gen s);
          gen := advance_by (N * dim) (gen s);
          trace := tr |})
  | Thrown e =>
      (Thrown e, {| particles := particles s; gen := gen s; trace := tr |})
  | NullCall p =>
      (NullCall p, {| particles := particles s; gen := gen s; trace := tr |})
  end.

(** The magnetic branch cannot stop a load: the basis is Cartesian, or the
    field is present and [localMagneticBasis] returns on every value the
    field takes. *)
Definition field_ok (mf : option VectorFunction) : Prop :=
  basis_ self = Cartesian
  \/ exists f, mf = Some f
               /\ forall coords, exists b,
                    localMagneticBasis R (f coords) = Normal b.

Definition basis_at (mf : option VectorFunction) (coords : list double)
  : option basis3 :=
  match field_outcome mf coords with
  | Normal b => b
  | _ => None
  end.

(** The coordinates a loader of dimension [dim] passes to the moment
    profiles and to the magnetic field for the cell [cell], and its cell
    volume. *)
Definition center_args (dim : nat) (layout : GridLayout) (cell : list Z)
  : list double :=
  map (fun i => nth i (cellCenteredCoordinates layout cell) zero) (seq 0 dim).

Definition field_args (dim : nat) (layout : GridLayout) (cell : list Z)
  : list double :=
  match dim with
  | 2%nat => center_args 2 layout cell ++ [pz (origin layout)]
  | _ => center_args dim layout cell
  end.

Definition cell_volume (dim : nat) (layout : GridLayout) : double :=
  let dx := nth 0 (meshSize layout) zero in
  let dy := nth 1 (meshSize layout) zero in
  let dz := nth 2 (meshSize layout) zero in
  match dim with
  | 1%nat => dx
  | 2%nat => (dx * dy)%float
  | _ => (dx * dy * dz)%float
  end.

(** The physical index range of a direction, and the cells of a region in
    the order the loops visit them. *)
Definition physical_range (layout : GridLayout) (dir : Direction) : list Z :=
  index_range (uint32 (physicalStartIndex layout primal dir))
              (uint32 (physicalEndIndex layout primal dir)).

Definition cells (dim : nat) (layout : GridLayout) : list (list Z) :=
  match dim with
  | 1%nat => map (fun ix => [ix]) (physical_range layout dirX)
  | 2%nat =>
      flat_map (fun ix => map (fun iy => [ix; iy]) (physical_range layout dirY))
               (physical_range layout dirX)
  | _ =>
      flat_map (fun ix =>
        flat_map (fun iy =>
          map (fun iz => [ix; iy; iz]) (physical_range layout dirZ))
          (physical_range layout dirY))
        (physical_range layout dirX)
  end.

(** The particles of one cell, entered with generator [g]. *)
Definition cell_particles (dim : nat) (layout : GridLayout)
    (d : ScalarFunction) (bv tv : VectorFunction) (mf : option VectorFunction)
    (cell : list Z) (g : generator R) : list Particle :=
  let args := center_args dim layout cell in
  batch dim (bv args) (tv args) (basis_at mf (field_args dim layout cell))
    (cell_weight (d args) (cell_volume dim layout)) cell N g.

(** The state after a cell that ran to its end. *)
Definition cell_step (dim : nat) (layout : GridLayout)
    (d : ScalarFunction) (bv tv : VectorFunction) (mf : option VectorFunction)
    (s : LoadState) (cell : list Z) : LoadState :=
  {| particles := particles s ++ cell_particles dim layout d bv tv mf cell (gen s);
     gen := advance_by (N * dim) (gen s);
     trace := trace s ++ cell_events (center_args dim layout cell)
                      ++ field_events mf (field_args dim layout cell) |}.

(** The particles of a list of cells, entered with generator [g]. *)
Fixpoint region_particles (dim : nat) (layout : GridLayout)
    (d : ScalarFunction) (bv tv : VectorFunction) (mf : option VectorFunction)
    (cs : list (list Z)) (g : generator R) : list Particle :=
  match cs with
  | [] => []
  | c :: cs' =>
      cell_particles dim layout d bv tv mf c g
      ++ region_particles dim layout d bv tv mf cs' (advance_by (N * dim) g)
  end.

(** The profile accesses of a list of cells. *)
Definition region_events (dim : nat) (layout : GridLayout)
    (mf : option VectorFunction) (cs : list (list Z)) : list Event :=
  flat_map (fun c => cell_events (center_args dim layout c)
                     ++ field_events mf (field_args dim layout c)) cs.

Definition is_null {F} (ptr : option F) : bool :=
  match ptr with None => true | Some _ => false end.

(** The state in which the cell loops are entered: the four references
    have been bound. *)
Definition entered (container : list Particle) (g : generator R) : LoadState :=
  {| particles := container;
     gen := g;
     trace := [Dereference Density (is_null (density_ self));
               Dereference BulkVelocity (is_null (bulkVelocity_ self));
               Dereference ThermalVelocity (is_null (thermalVelocity_ self));
               Dereference MagneticField (is_null (magneticField_ self))] |}.

(** The seed of the generator a loader of dimension [dim] constructs. *)
Definition generator_seed (dim : nat) (randSeed : Z) : Z :=
  match dim with
  | 1%nat => 1
  | _ => randSeed
  end.

(** The state a loader of dimension [dim] ends in when its three moment
    profiles [d], [bv], [tv] are present and its magnetic branch cannot
    stop it. *)
Definition loaded (d : ScalarFunction) (bv tv : VectorFunction)
    (dim : nat) (randSeed : Z) (layout : GridLayout)
    (container : list Particle) : LoadState :=
  let g := mt19937_64 R (generator_seed dim randSeed) in
  {| particles :=
       container
       ++ region_particles dim layout d bv tv (magneticField_ self)
            (cells dim layout) g;
     gen := advance_by (length (cells dim layout) * (N * dim)) g;
     trace := trace (entered container g)
              ++ region_events dim layout (magneticField_ self)
                   (cells dim layout) |}.

End Loaders.

Arguments particles {R} _.
Arguments gen {R} _.
Arguments trace {R} _.
Arguments Build_LoadState {R} _ _ _.
Arguments ret {R A} _ _.
Arguments bind {R A B} _ _ _.
Arguments log {R} _ _.
Arguments push_back {R} _ _.
Arguments copy_generator {R} _.
Arguments randPos {R} _.
Arguments lift {R A} _ _.
Arguments deref {R F} _ _ _.
Arguments call {R V} _ _ _ _.
Arguments for_each {R A} _ _ _.
Arguments repeat_load {R} _ _ _.
Arguments start {R} _ _.
Arguments draw_delta {R} _ _.
Arguments advance {R} _.
Arguments offset {R} _.
Arguments offsets {R} _ _.
Arguments advance_by {R} _ _.
Arguments is_null {F} _.

(** What every computation of the loaders respects, whatever its outcome:
    the generator moves by uniform draws only, the container is only
    appended to, the log only grows, and an exception comes from
    [localMagneticBasis]. *)
Definition proper {R : Runtime} {A} (m : Load R A) : Prop :=
  forall s,
    (exists k, gen (snd (m s)) = advance_by k (gen s))
    /\ (exists ps, particles (snd (m s)) = particles s ++ ps)
    /\ (exists evs, trace (snd (m s)) = trace s ++ evs)
    /\ (forall e, fst (m s) = Thrown e ->
                  exists B, localMagneticBasis R B = Thrown e).

(** The total of the weights of a list of particles, added in double
    precision in the order of the list. *)
Definition total_weight (l : list Particle) : double :=
  fold_left PrimFloat.add (map weight l) 0%float.

(** The rational number a finite double stands for. *)
Definition exact (x : double) : option Q :=
  match Prim2SF x with
  | S754_zero _ => Some 0%Q
  | S754_finite s m e =>
      let mag :=
        ((Z.pos m # 1)
         * (if e <? 0 then 1 # Pos.pow 2 (Z.to_pos (- e)) else (2 ^ e) # 1))%Q in
      Some (if s then Qopp mag else mag)
  | _ => None
  end.

(** The exact total of the weights, when all are finite. *)
Fixpoint exact_total_weight (l : list Particle) : option Q :=
  match l with
  | [] => Some 0%Q
  | p :: l' =>
      match exact (weight p), exact_total_weight l' with
      | Some w, Some t => Some (w + t)%Q
      | _, _ => None
      end
  end.

(** The number of particles of [l] that carry the cell index [cell]. *)
Definition in_cell (cell : list Z) (p : Particle) : bool :=
  if list_eq_dec Z.eq_dec (iCell p) cell then true else false.

Definition count_in_cell (cell : list Z) (l : list Particle) : nat :=
  length (filter (in_cell cell) l).

(** The runtime [R] with another function in the place of
    [maxwellianVelocity]. *)
Definition with_sampler (R : Runtime)
    (sampler : vec3 -> vec3 -> generator R -> vec3) : Runtime :=
  {| generator := generator R;
     mt19937_64 := mt19937_64 R;
     uniform_real_distribution := uniform_real_distribution R;
     maxwellianVelocity := sampler;
     localMagneticBasis := localMagneticBasis R;
     basisTransform := basisTransform R |}.

(** The initializer [self] with another magnetic-field pointer. *)
Definition with_field (self : FluidParticleInitializer)
    (magneticField : option VectorFunction) : FluidParticleInitializer :=
  {| density_ := density_ self;
     bulkVelocity_ := bulkVelocity_ self;
     thermalVelocity_ := thermalVelocity_ self;
     particleCharge_ := particleCharge_ self;
     nbrParticlePerCell_ := nbrParticlePerCell_ self;
     basis_ := basis_ self;
     magneticField_ := magneticField |}.

Definition same_profile (p q : Profile) : bool :=
  match p, q with
  | Density, Density => true
  | BulkVelocity, BulkVelocity => true
  | ThermalVelocity, ThermalVelocity => true
  | MagneticField, MagneticField => true
  | _, _ => false
  end.

(** The coordinates with which the profile [p] was evaluated, in the order
    of the log. *)
Fixpoint evaluations (p : Profile) (tr : list Event) : list (list double) :=
  match tr with
  | [] => []
  | Evaluate q coords :: tr' =>
      if same_profile p q then coords :: evaluations p tr'
      else evaluations p tr'
  | Dereference _ _ :: tr' => evaluations p tr'
  end.

(** The number of indices the loop of a direction visits. *)
Definition extent (layout : GridLayout) (dir : Direction) : nat :=
  Z.to_nat (uint32 (physicalEndIndex layout primal dir)
            - uint32 (physicalStartIndex layout primal dir)).

(** The number of cells the loops of a loader of dimension [dim] visit. *)
Definition region_size (dim : nat) (layout : GridLayout) : nat :=
  match dim with
  | 1%nat => extent layout dirX
  | 2%nat => extent layout dirX * extent layout dirY
  | _ => extent layout dirX * extent layout dirY * extent layout dirZ
  end.

(** Whether two lists of particles carry the same sub-cell offsets. *)
Fixpoint same_floats (l1 l2 : list float32) : bool :=
  match l1, l2 with
  | [], [] => true
  | x :: l1', y :: l2' => PrimFloat.eqb x y && same_floats l1' l2'
  | _, _ => false
  end.

Fixpoint same_offsets (l1 l2 : list Particle) : bool :=
  match l1, l2 with
  | [], [] => true
  | p :: l1', q :: l2' => same_floats (delta p) (delta q) && same_offsets l1' l2'
  | _, _ => false
  end.

(** The basis whose axes are the Cartesian axes. *)
Definition cartesianBasis : basis3 :=
  ((1, 0, 0), (0, 1, 0), (0, 0, 1))%float.





Module Fallback.

(** Modelled from the spec: [localMagneticBasis], whose body is in the
    absent implementation file, with the degenerate field resolved inside
    it as section 7 words the condition: a field of magnitude below
    [tolerance] is not fatal and the basis written is the Cartesian one;
    any other field gets the basis of [Kernels.localMagneticBasis]. *)
Definition localMagneticBasis (tolerance : double) (B : vec3)
  : Outcome basis3 :=
  if (Kernels.norm B <? tolerance)%float then Normal cartesianBasis
  else Kernels.localMagneticBasis tolerance B.

(** The runtime of [Sample] with this builder. *)
Definition runtime : Runtime :=
  Build_Runtime Z (fun seed => seed mod 2 ^ 64) Sample.uniform
    (Kernels.maxwellianVelocity Z Sample.deviates)
    (localMagneticBasis Sample.tolerance) Kernels.basisTransform.

End Fallback.

(** The body of the cell loop of the loader of dimension [dim], at the cell
    of index tuple [cell]. *)
Definition load_cell (R : Runtime) (self : FluidParticleInitializer)
    (dim : nat) (layout : GridLayout) (cell : list Z) : Load R unit :=
  match dim with
  | 1%nat =>
      load_cell1D R self layout (cell_volume 1 layout)
        (density_ self) (bulkVelocity_ self) (thermalVelocity_ self)
        (magneticField_ self) (nth 0 cell 0)
  | 2%nat =>
      load_cell2D R self layout (cell_volume 2 layout) (origin layout)
        (density_ self) (bulkVelocity_ self) (thermalVelocity_ self)
        (magneticField_ self) (nth 0 cell 0) (nth 1 cell 0)
  | _ =>
      load_cell3D R self layout (cell_volume 3 layout)
        (density_ self) (bulkVelocity_ self) (thermalVelocity_ self)
        (magneticField_ self) (nth 0 cell 0) (nth 1 cell 0) (nth 2 cell 0)
  end.

(** [b] is what the particle loop of the cell [cell] pushes: the moment
    profiles are present and [b] is the batch of the N particles made from
    their values at the cell center, with some basis and from some state of
    the generator. *)
Definition cell_batch (R : Runtime) (self : FluidParticleInitializer)
    (dim : nat) (layout : GridLayout) (cell : list Z) (b : list Particle)
  : Prop :=
  exists d bv tv basis g,
    density_ self = Some d
    /\ bulkVelocity_ self = Some bv
    /\ thermalVelocity_ self = Some tv
    /\ b = batch R self dim
             (bv (center_args dim layout cell))
             (tv (center_args dim layout cell)) basis
             (cell_weight self (d (center_args dim layout cell))
                (cell_volume dim layout))
             cell (Z.to_nat (nbrParticlePerCell_ self)) g.

(** A turn of a cell loop either runs to its end and pushes a batch that
    [P] describes, or stops the load and pushes nothing. *)
Definition pushes_or_stops {R : Runtime} {A}
    (P : A -> list Particle -> Prop) (body : A -> Load R unit)
    (x : A) (s : LoadState R) : Prop :=
  (fst (body x s) = Normal tt
   /\ exists b, particles (snd (body x s)) = particles s ++ b /\ P x b)
  \/ (fst (body x s) <> Normal tt
      /\ particles (snd (body x s)) = particles s).

(** ** The numbers doubles stand for *)

(** The rational value of a finite double, from its sign, mantissa and
    exponent; 0 for the other doubles. *)
Definition SFvalue (x : spec_float) : Q :=
  match x with
  | S754_finite s m e =>
      (if s then - (1) else 1) * inject_Z (Zpos m) * (2 # 1) ^ e
  | _ => 0
  end.

Definition value (x : double) : Q := SFvalue (Prim2SF x).

(** The unit in the last place of a finite non-zero double: 2 to the
    exponent of its mantissa. *)
Definition ulp_of (x : double) : Q :=
  match Prim2SF x with
  | S754_finite _ _ e => (2 # 1) ^ e
  | _ => 0
  end.

Definition finite_nonzero (x : double) : Prop :=
  match Prim2SF x with
  | S754_finite _ _ _ => True
  | _ => False
  end.

(** The sum of the weights of a list of particles, as a rational number. *)
Fixpoint exact_sum (l : list Particle) : Q :=
  match l with
  | [] => 0
  | p :: l' => value (weight p) + exact_sum l'
  end.

(** The integer [m] and the location [l] describe the quotient [num / den]:
    [m] is its integer part and [l] tells where it lies between [m] and
    [m + 1]. *)
Definition located (num den m : Z) (l : location) : Prop :=
  m * den <= num < (m + 1) * den
  /\ match l with
     | loc_Exact => num = m * den
     | loc_Inexact Lt => m * den < num /\ 2 * num < (2 * m + 1) * den
     | loc_Inexact Eq => 2 * num = (2 * m + 1) * den
     | loc_Inexact Gt => (2 * m + 1) * den < 2 * num
     end.

Definition recorded (num den : Z) (r : shr_record) : Prop :=
  0 <= shr_m r /\ located num den (shr_m r) (loc_of_shr_record r).

(** * Properties of the runs *)

Section RunLemmas.

Variable R : Runtime.
Variable self : FluidParticleInitializer.

Abbreviation N := (Z.to_nat (nbrParticlePerCell_ self)).

Lemma advance_by_add (a b : nat) (g : generator R) :
  advance_by (a + b) g = advance_by b (advance_by a g).
Proof.
  revert g; induction a as [|a IH]; intro g; simpl; [reflexivity | apply IH].
Qed.

Lemma draw_delta_run (dim : nat) (s : LoadState R) :
  draw_delta dim s
  = (Normal (offsets dim (gen s)),
     {| particles := particles s; gen := advance_by dim (gen s);
        trace := trace s |}).
Proof.
  revert s; induction dim as [|d IH]; intro s.
  - destruct s; reflexivity.
  - simpl. unfold bind at 1. unfold randPos at 1. cbv beta zeta.
    unfold bind at 1. rewrite IH. reflexivity.
Qed.

Lemma load_particle_run dim V Vth basis w cell (s : LoadState R) :
  load_particle R self dim V Vth basis w cell s
  = (Normal tt,
     {| particles :=
          particles s ++ [new_particle R self dim V Vth basis w cell (gen s)];
        gen := advance_by dim (gen s);
        trace := trace s |}).
Proof.
  unfold load_particle, bind, copy_generator.
  rewrite draw_delta_run. reflexivity.
Qed.

Lemma repeat_load_run dim V Vth basis w cell (n : nat) (s : LoadState R) :
  repeat_load n (load_particle R self dim V Vth basis w cell) s
  = (Normal tt,
     {| particles := particles s ++ batch R self dim V Vth basis w cell n (gen s);
        gen := advance_by (n * dim) (gen s);
        trace := trace s |}).
Proof.
  revert s; induction n as [|n IH]; intro s.
  - simpl. rewrite app_nil_r. destruct s; reflexivity.
  - simpl. unfold bind at 1. rewrite load_particle_run, IH. simpl.
    rewrite <- app_assoc, advance_by_add. reflexivity.
Qed.

Lemma batch_length dim V Vth basis w cell n g :
  length (batch R self dim V Vth basis w cell n g) = n.
Proof.
  revert g; induction n as [|n IH]; intro g; simpl; [reflexivity|].
  now rewrite IH.
Qed.

Lemma batch_Forall dim V Vth basis w cell n g :
  Forall (fun p => exists g', p = new_particle R self dim V Vth basis w cell g')
         (batch R self dim V Vth basis w cell n g).
Proof.
  revert g; induction n as [|n IH]; intro g; simpl; constructor.
  - now exists g.
  - apply IH.
Qed.

Lemma batch_weights dim V Vth basis w cell n g :
  map weight (batch R self dim V Vth basis w cell n g) = repeat w n.
Proof.
  revert g; induction n as [|n IH]; intro g; simpl; [reflexivity|].
  now rewrite IH.
Qed.

(** *** One cell *)

Lemma load_basis_run mf coords (s : LoadState R) :
  load_basis R self mf coords s
  = (field_outcome R self mf coords,
     {| particles := particles s; gen := gen s;
        trace := trace s ++ field_events self mf coords |}).
Proof.
  unfold load_basis, field_outcome, field_events.
  destruct (is_magnetic (basis_ self)).
  - destruct mf as [f|]; simpl.
    + unfold bind, log, lift, ret; simpl.
      destruct (localMagneticBasis R (f coords)); reflexivity.
    + unfold lift. rewrite app_nil_r. destruct s; reflexivity.
  - unfold ret. rewrite app_nil_r. destruct s; reflexivity.
Qed.

Ltac run_cell :=
  unfold bind at 1; unfold call at 1; unfold bind at 1; unfold log at 1;
  unfold ret at 1; cbv beta iota zeta.

Lemma cell_run_tail dim cell args bargs vol d bv tv mf (s : LoadState R) :
  bind (load_basis R self mf bargs)
    (fun basis =>
       repeat_load N
         (load_particle R self dim (bv args) (tv args) basis
            (cell_weight self (d args) vol) cell))
    {| particles := particles s; gen := gen s;
       trace := trace s ++ cell_events args |}
  = cell_run R self dim cell args bargs vol d bv tv mf s.
Proof.
  unfold bind at 1. rewrite load_basis_run. simpl particles. simpl gen.
  simpl trace. rewrite <- app_assoc. unfold cell_run. cbv zeta.
  destruct (field_outcome R self mf bargs); try reflexivity.
  rewrite repeat_load_run. reflexivity.
Qed.

Lemma cell_events_logged args (s : LoadState R) :
  {| particles := particles s; gen := gen s;
     trace := ((trace s ++ [Evaluate Density args])
               ++ [Evaluate BulkVelocity args])
              ++ [Evaluate ThermalVelocity args] |}
  = {| particles := particles s; gen := gen s;
       trace := trace s ++ cell_events args |}.
Proof. unfold cell_events. now rewrite <- !app_assoc. Qed.

Lemma load_cell1D_run layout vol d bv tv mf ix (s : LoadState R) :
  load_cell1D R self layout vol (Some d) (Some bv) (Some tv) mf ix s
  = let x := nth 0 (cellCenteredCoordinates layout [ix]) zero in
    cell_run R self 1 [ix] [x] [x] vol d bv tv mf s.
Proof.
  unfold load_cell1D. cbv zeta. do 3 run_cell. simpl particles. simpl gen.
  simpl trace. rewrite cell_events_logged. apply cell_run_tail.
Qed.

Lemma load_cell2D_run layout vol o d bv tv mf ix iy (s : LoadState R) :
  load_cell2D R self layout vol o (Some d) (Some bv) (Some tv) mf ix iy s
  = let coord := cellCenteredCoordinates layout [ix; iy] in
    let x := nth 0 coord zero in
    let y := nth 1 coord zero in
    cell_run R self 2 [ix; iy] [x; y] [x; y; pz o] vol d bv tv mf s.
Proof.
  unfold load_cell2D. cbv zeta. do 3 run_cell. simpl particles. simpl gen.
  simpl trace. rewrite cell_events_logged. apply cell_run_tail.
Qed.

Lemma load_cell3D_run layout vol d bv tv mf ix iy iz (s : LoadState R) :
  load_cell3D R self layout vol (Some d) (Some bv) (Some tv) mf ix iy iz s
  = let coord := cellCenteredCoordinates layout [ix; iy; iz] in
    let x := nth 0 coord zero in
    let y := nth 1 coord zero in
    let z := nth 2 coord zero in
    cell_run R self 3 [ix; iy; iz] [x; y; z] [x; y; z] vol d bv tv mf s.
Proof.
  unfold load_cell3D. cbv zeta. do 3 run_cell. simpl particles. simpl gen.
  simpl trace. rewrite cell_events_logged. apply cell_run_tail.
Qed.

(** *** A whole region *)

Lemma field_ok_outcome mf coords :
  field_ok R self mf ->
  field_outcome R self mf coords = Normal (basis_at R self mf coords).
Proof.
  unfold basis_at, field_outcome. intros [Hc | [f [-> Hf]]].
  - rewrite Hc. reflexivity.
  - destruct (is_magnetic (basis_ self)); [|reflexivity].
    destruct (Hf coords) as [b ->]. reflexivity.
Qed.

Lemma cell_run_ok dim layout d bv tv mf cell (s : LoadState R) :
  field_ok R self mf ->
  cell_run R self dim cell (center_args dim layout cell)
    (field_args dim layout cell) (cell_volume dim layout) d bv tv mf s
  = (Normal tt, cell_step R self dim layout d bv tv mf s cell).
Proof.
  intro H. unfold cell_run, cell_step, cell_particles.
  rewrite (field_ok_outcome _ _ H). reflexivity.
Qed.

Lemma for_each_steps {A} (l : list A) (body : A -> Load R unit)
    (step : LoadState R -> A -> LoadState R) :
  (forall x s, body x s = (Normal tt, step s x)) ->
  forall s, for_each l body s = (Normal tt, fold_left step l s).
Proof.
  intro H. induction l as [|x l IH]; intro s; simpl; [reflexivity|].
  unfold bind. rewrite H. apply IH.
Qed.

Lemma fold_left_map_list {A B S} (f : S -> B -> S) (g : A -> B) (l : list A) :
  forall s, fold_left f (map g l) s = fold_left (fun s x => f s (g x)) l s.
Proof. induction l as [|x l IH]; intro s; simpl; [reflexivity | apply IH]. Qed.

Lemma fold_left_flat_map {A B S} (f : S -> B -> S) (g : A -> list B)
    (l : list A) :
  forall s,
    fold_left f (flat_map g l) s = fold_left (fun s x => fold_left f (g x) s) l s.
Proof.
  induction l as [|x l IH]; intro s; simpl; [reflexivity|].
  rewrite fold_left_app. apply IH.
Qed.

Lemma region_run dim layout d bv tv mf cs (s : LoadState R) :
  fold_left (cell_step R self dim layout d bv tv mf) cs s
  = {| particles :=
         particles s ++ region_particles R self dim layout d bv tv mf cs (gen s);
       gen := advance_by (length cs * (N * dim)) (gen s);
       trace := trace s ++ region_events self dim layout mf cs |}.
Proof.
  revert s; induction cs as [|c cs IH]; intro s.
  - simpl. unfold region_events. simpl. rewrite !app_nil_r.
    destruct s; reflexivity.
  - simpl fold_left. rewrite IH. unfold cell_step at 1 2 3.
    simpl particles. simpl gen. simpl trace.
    rewrite <- !app_assoc, <- advance_by_add. reflexivity.
Qed.

Section Supplied.

Variables (d : ScalarFunction) (bv tv : VectorFunction).
Hypothesis Hd : density_ self = Some d.
Hypothesis Hbv : bulkVelocity_ self = Some bv.
Hypothesis Htv : thermalVelocity_ self = Some tv.
Hypothesis Hmf : field_ok R self (magneticField_ self).

Ltac bind_references :=
  do 4 (unfold bind at 1; unfold deref at 1;
        unfold bind at 1, log at 1, ret at 1);
  cbv beta iota zeta; simpl particles; simpl gen; simpl trace.

Lemma loadParticles1D_steps randSeed layout container :
  loadParticles1D_ R self randSeed layout container
  = (Normal tt,
     fold_left (cell_step R self 1 layout d bv tv (magneticField_ self))
       (cells 1 layout) (entered R self container (mt19937_64 R 1))).
Proof.
  unfold loadParticles1D_. cbv zeta. bind_references.
  unfold cells. rewrite fold_left_map_list.
  unfold entered. rewrite Hd, Hbv, Htv. cbn [app is_null].
  apply for_each_steps. intros ix s.
  rewrite load_cell1D_run. cbv zeta.
  apply (cell_run_ok 1 layout d bv tv _ [ix] s Hmf).
Qed.

Lemma loadParticles2D_steps randSeed layout container :
  loadParticles2D_ R self randSeed layout container
  = (Normal tt,
     fold_left (cell_step R self 2 layout d bv tv (magneticField_ self))
       (cells 2 layout) (entered R self container (mt19937_64 R randSeed))).
Proof.
  unfold loadParticles2D_. cbv zeta. bind_references.
  unfold cells. rewrite fold_left_flat_map.
  unfold entered. rewrite Hd, Hbv, Htv. cbn [app is_null].
  apply for_each_steps. intros ix s.
  rewrite fold_left_map_list. apply for_each_steps. intros iy s'.
  rewrite load_cell2D_run. cbv zeta.
  apply (cell_run_ok 2 layout d bv tv _ [ix; iy] s' Hmf).
Qed.

Lemma loadParticles3D_steps randSeed layout container :
  loadParticles3D_ R self randSeed layout container
  = (Normal tt,
     fold_left (cell_step R self 3 layout d bv tv (magneticField_ self))
       (cells 3 layout) (entered R self container (mt19937_64 R randSeed))).
Proof.
  unfold loadParticles3D_. cbv zeta. bind_references.
  unfold cells. rewrite fold_left_flat_map.
  unfold entered. rewrite Hd, Hbv, Htv. cbn [app is_null].
  apply for_each_steps. intros ix s.
  rewrite fold_left_flat_map. apply for_each_steps. intros iy s'.
  rewrite fold_left_map_list. apply for_each_steps. intros iz s''.
  rewrite load_cell3D_run. cbv zeta.
  apply (cell_run_ok 3 layout d bv tv _ [ix; iy; iz] s'' Hmf).
Qed.

Lemma loadParticles1D_run randSeed layout container :
  loadParticles1D_ R self randSeed layout container
  = (Normal tt, loaded R self d bv tv 1 randSeed layout container).
Proof. rewrite loadParticles1D_steps, region_run. reflexivity. Qed.

Lemma loadParticles2D_run randSeed layout container :
  loadParticles2D_ R self randSeed layout container
  = (Normal tt, loaded R self d bv tv 2 randSeed layout container).
Proof. rewrite loadParticles2D_steps, region_run. reflexivity. Qed.

Lemma loadParticles3D_run randSeed layout container :
  loadParticles3D_ R self randSeed layout container
  = (Normal tt, loaded R self d bv tv 3 randSeed layout container).
Proof. rewrite loadParticles3D_steps, region_run. reflexivity. Qed.

Lemma loadParticles_run randSeed layout container :
  (1 <= dimension layout <= 3)%nat ->
  loadParticles R self randSeed layout container
  = (Normal tt,
     container
     ++ region_particles R self (dimension layout) layout d bv tv
          (magneticField_ self) (cells (dimension layout) layout)
          (mt19937_64 R (generator_seed (dimension layout) randSeed))).
Proof.
  intro H. unfold loadParticles.
  destruct (dimension layout) as [|[|[|[|n]]]]; try lia.
  - rewrite loadParticles1D_run. reflexivity.
  - rewrite loadParticles2D_run. reflexivity.
  - rewrite loadParticles3D_run. reflexivity.
Qed.

End Supplied.

End RunLemmas.

(** * What holds of every run *)

Section Proper.

Variable R : Runtime.
Variable self : FluidParticleInitializer.

Lemma proper_ret {A} (a : A) : proper (@ret R A a).
Proof.
  intro s. simpl. repeat split.
  - now exists 0%nat.
  - exists []. now rewrite app_nil_r.
  - exists []. now rewrite app_nil_r.
  - discriminate.
Qed.

Lemma proper_bind {A B} (m : Load R A) (k : A -> Load R B) :
  proper m -> (forall a, proper (k a)) -> proper (bind m k).
Proof.
  intros Hm Hk s. unfold bind.
  destruct (Hm s) as ([n Hg] & [ps Hp] & [evs Ht] & He).
  destruct (m s) as [[a|e|p] s']; simpl in *.
  - destruct (Hk a s') as ([n' Hg'] & [ps' Hp'] & [evs' Ht'] & He').
    repeat split.
    + exists (n + n')%nat. now rewrite Hg', Hg, advance_by_add.
    + exists (ps ++ ps'). now rewrite Hp', Hp, app_assoc.
    + exists (evs ++ evs'). now rewrite Ht', Ht, app_assoc.
    + exact He'.
  - repeat split; eauto.
    intros e0 H. injection H as <-. now apply He.
  - repeat split; eauto. discriminate.
Qed.

Lemma proper_log e : proper (@log R e).
Proof.
  intro s. simpl. repeat split.
  - now exists 0%nat.
  - exists []. now rewrite app_nil_r.
  - now exists [e].
  - discriminate.
Qed.

Lemma proper_push_back p : proper (@push_back R p).
Proof.
  intro s. simpl. repeat split.
  - now exists 0%nat.
  - now exists [p].
  - exists []. now rewrite app_nil_r.
  - discriminate.
Qed.

Lemma proper_copy_generator : proper (@copy_generator R).
Proof.
  intro s. simpl. repeat split.
  - now exists 0%nat.
  - exists []. now rewrite app_nil_r.
  - exists []. now rewrite app_nil_r.
  - discriminate.
Qed.

Lemma proper_randPos : proper (@randPos R).
Proof.
  intro s. simpl. repeat split.
  - now exists 1%nat.
  - exists []. now rewrite app_nil_r.
  - exists []. now rewrite app_nil_r.
  - discriminate.
Qed.

Lemma proper_lift {A} (o : Outcome A) :
  (forall e, o = Thrown e -> exists B, localMagneticBasis R B = Thrown e) ->
  proper (@lift R A o).
Proof.
  intros H s. simpl. repeat split.
  - now exists 0%nat.
  - exists []. now rewrite app_nil_r.
  - exists []. now rewrite app_nil_r.
  - exact H.
Qed.

Lemma proper_deref {F} p (ptr : option F) : proper (@deref R F p ptr).
Proof.
  unfold deref. apply proper_bind; [apply proper_log|].
  intro. apply proper_ret.
Qed.

Lemma proper_call {V} p (r : option (list double -> V)) coords :
  proper (@call R V p r coords).
Proof.
  unfold call. destruct r as [f|].
  - apply proper_bind; [apply proper_log|]. intro. apply proper_ret.
  - apply proper_lift. discriminate.
Qed.

Lemma proper_for_each {A} (l : list A) (body : A -> Load R unit) :
  (forall x, proper (body x)) -> proper (for_each l body).
Proof.
  intro H. induction l as [|x l IH]; simpl.
  - apply proper_ret.
  - apply proper_bind; [apply H | intro; exact IH].
Qed.

Lemma proper_repeat_load n (body : Load R unit) :
  proper body -> proper (repeat_load n body).
Proof.
  intro H. induction n as [|n IH]; simpl.
  - apply proper_ret.
  - apply proper_bind; [exact H | intro; exact IH].
Qed.

Lemma proper_draw_delta dim : proper (@draw_delta R dim).
Proof.
  induction dim as [|n IH]; simpl.
  - apply proper_ret.
  - apply proper_bind; [apply proper_randPos|]. intro x.
    apply proper_bind; [exact IH|]. intro. apply proper_ret.
Qed.

Lemma proper_load_basis mf coords : proper (load_basis R self mf coords).
Proof.
  unfold load_basis. destruct (is_magnetic (basis_ self)).
  - apply proper_bind; [apply proper_call|]. intro B.
    apply proper_bind; [|intro; apply proper_ret].
    apply proper_lift. intros e H. now exists B.
  - apply proper_ret.
Qed.

Lemma proper_load_particle dim V Vth basis w cell :
  proper (load_particle R self dim V Vth basis w cell).
Proof.
  unfold load_particle.
  apply proper_bind; [apply proper_copy_generator|]. intro g.
  apply proper_bind; [apply proper_draw_delta|]. intro.
  apply proper_push_back.
Qed.

Ltac proper_cell :=
  repeat (apply proper_bind; [apply proper_call|]; intro);
  apply proper_bind; [apply proper_load_basis|]; intro;
  apply proper_repeat_load, proper_load_particle.

Lemma proper_load_cell1D layout vol d bv tv mf ix :
  proper (load_cell1D R self layout vol d bv tv mf ix).
Proof. unfold load_cell1D. proper_cell. Qed.

Lemma proper_load_cell2D layout vol o d bv tv mf ix iy :
  proper (load_cell2D R self layout vol o d bv tv mf ix iy).
Proof. unfold load_cell2D. proper_cell. Qed.

Lemma proper_load_cell3D layout vol d bv tv mf ix iy iz :
  proper (load_cell3D R self layout vol d bv tv mf ix iy iz).
Proof. unfold load_cell3D. proper_cell. Qed.

Ltac proper_references :=
  repeat (apply proper_bind; [apply proper_deref|]; intro).

Lemma proper_loadParticles1D randSeed layout container :
  let r := loadParticles1D_ R self randSeed layout container in
  (exists k, gen (snd r) = advance_by k (mt19937_64 R 1))
  /\ (exists ps, particles (snd r) = container ++ ps)
  /\ (forall e, fst r = Thrown e ->
               exists B, localMagneticBasis R B = Thrown e).
Proof.
  cbv zeta. unfold loadParticles1D_.
  match goal with
  | |- context [?m (start container ?g)] =>
      assert (H : proper m);
      [| destruct (H (start container g)) as (Hg & Hp & _ & He);
         repeat split; assumption]
  end.
  proper_references. apply proper_for_each. intro.
  apply proper_load_cell1D.
Qed.

Lemma proper_loadParticles2D randSeed layout container :
  let r := loadParticles2D_ R self randSeed layout container in
  (exists k, gen (snd r) = advance_by k (mt19937_64 R randSeed))
  /\ (exists ps, particles (snd r) = container ++ ps)
  /\ (forall e, fst r = Thrown e ->
               exists B, localMagneticBasis R B = Thrown e).
Proof.
  cbv zeta. unfold loadParticles2D_.
  match goal with
  | |- context [?m (start container ?g)] =>
      assert (H : proper m);
      [| destruct (H (start container g)) as (Hg & Hp & _ & He);
         repeat split; assumption]
  end.
  proper_references. apply proper_for_each. intro.
  apply proper_for_each. intro. apply proper_load_cell2D.
Qed.

Lemma proper_loadParticles3D randSeed layout container :
  let r := loadParticles3D_ R self randSeed layout container in
  (exists k, gen (snd r) = advance_by k (mt19937_64 R randSeed))
  /\ (exists ps, particles (snd r) = container ++ ps)
  /\ (forall e, fst r = Thrown e ->
               exists B, localMagneticBasis R B = Thrown e).
Proof.
  cbv zeta. unfold loadParticles3D_.
  match goal with
  | |- context [?m (start container ?g)] =>
      assert (H : proper m);
      [| destruct (H (start container g)) as (Hg & Hp & _ & He);
         repeat split; assumption]
  end.
  proper_references. apply proper_for_each. intro.
  apply proper_for_each. intro. apply proper_for_each. intro.
  apply proper_load_cell3D.
Qed.

Lemma loadParticles_throws randSeed layout container e :
  fst (loadParticles R self randSeed layout container) = Thrown e ->
  exists B, localMagneticBasis R B = Thrown e.
Proof.
  unfold loadParticles, observed.
  destruct (dimension layout) as [|[|[|[|n]]]]; simpl; try discriminate.
  - apply proper_loadParticles1D.
  - apply proper_loadParticles2D.
  - apply proper_loadParticles3D.
Qed.

End Proper.

(** * The claims *)


Section RegionLemmas.

Variable R : Runtime.
Variable self : FluidParticleInitializer.
Variables (dim : nat) (layout : GridLayout).
Variables (d : ScalarFunction) (bv tv : VectorFunction).
Variable mf : option VectorFunction.

Abbreviation N := (Z.to_nat (nbrParticlePerCell_ self)).


Lemma region_split cs g c :
  In c cs ->
  exists g' before after,
    region_particles R self dim layout d bv tv mf cs g
    = before ++ cell_particles R self dim layout d bv tv mf c g' ++ after.
Proof.
  revert g; induction cs as [|c0 cs IH]; intros g HI; [destruct HI|].
  destruct HI as [E|I].
  - subst c0. exists g, [].
    exists (region_particles R self dim layout d bv tv mf cs
              (advance_by (N * dim) g)).
    reflexivity.
  - destruct (IH (advance_by (N * dim) g) I) as [g' [b [a E]]].
    exists g', (cell_particles R self dim layout d bv tv mf c0 g ++ b), a.
    simpl. rewrite E. now rewrite <- app_assoc.
Qed.

Lemma region_Forall (P : Particle -> Prop) cs g :
  (forall c g', In c cs ->
     Forall P (cell_particles R self dim layout d bv tv mf c g')) ->
  Forall P (region_particles R self dim layout d bv tv mf cs g).
Proof.
  revert g; induction cs as [|c cs IH]; intros g H; simpl.
  - constructor.
  - apply Forall_app; split.
    + apply H. now left.
    + apply IH. intros c' g' I. apply H. now right.
Qed.

Lemma cell_particles_weights cell g :
  map weight (cell_particles R self dim layout d bv tv mf cell g)
  = repeat (d (center_args dim layout cell) * cell_volume dim layout
            / double_of_uint32 (nbrParticlePerCell_ self))%float N.
Proof. unfold cell_particles. cbv zeta. now rewrite batch_weights. Qed.

Lemma cell_particles_length cell g :
  length (cell_particles R self dim layout d bv tv mf cell g) = N.
Proof. unfold cell_particles. cbv zeta. apply batch_length. Qed.

Lemma cell_particles_Forall cell g :
  Forall (fun p =>
            iCell p = map static_cast_int32 cell
            /\ charge p = particleCharge_ self
            /\ weight p
               = (d (center_args dim layout cell) * cell_volume dim layout
                  / double_of_uint32 (nbrParticlePerCell_ self))%float
            /\ exists g',
                 v p = rotate R self (basis_at R self mf (field_args dim layout cell))
                         (maxwellianVelocity R (bv (center_args dim layout cell))
                            (tv (center_args dim layout cell)) g'))
         (cell_particles R self dim layout d bv tv mf cell g).
Proof.
  unfold cell_particles. cbv zeta.
  eapply Forall_impl; [|apply batch_Forall].
  intros p [g' ->]. simpl. repeat split. now exists g'.
Qed.

Lemma count_in_cell_app c l1 l2 :
  count_in_cell c (l1 ++ l2) = (count_in_cell c l1 + count_in_cell c l2)%nat.
Proof. unfold count_in_cell. now rewrite filter_app, length_app. Qed.

Lemma count_in_cell_all c l :
  Forall (fun p => iCell p = c) l -> count_in_cell c l = length l.
Proof.
  unfold count_in_cell, in_cell. induction 1 as [|p l Hp _ IH]; simpl.
  - reflexivity.
  - destruct (list_eq_dec Z.eq_dec (iCell p) c); [simpl; now rewrite IH|].
    contradiction.
Qed.

Lemma count_in_cell_none c c' l :
  c' <> c -> Forall (fun p => iCell p = c') l -> count_in_cell c l = 0%nat.
Proof.
  unfold count_in_cell, in_cell. intros Hne. induction 1 as [|p l Hp _ IH]; simpl.
  - reflexivity.
  - destruct (list_eq_dec Z.eq_dec (iCell p) c); [congruence | exact IH].
Qed.

End RegionLemmas.

Lemma static_cast_int32_small z :
  0 <= z < 2 ^ 31 -> static_cast_int32 z = z.
Proof.
  intro H. unfold static_cast_int32.
  rewrite Z.mod_small by lia.
  destruct (Z.ltb_spec z (2 ^ 31)); [reflexivity | lia].
Qed.

Lemma index_range_four i : index_range i (i + 4) = [i; i + 1; i + 2; i + 3].
Proof.
  unfold index_range. replace (i + 4 - i) with 4 by lia. simpl.
  now rewrite Z.add_0_r.
Qed.

(** The weights of a cell add up to [density * cellVolume] to floating-point
    precision and not bit for bit: for density 1, cell volume 1 and 10
    particles per cell the load emits ten particles of weight [1 / 10] in
    double precision, and neither their total formed in double precision
    nor their exact total is the double [density * cellVolume = 1]. *)
Lemma total_weight_not_bit_exact :
  let self := Sample.initializer 1%float 10 Cartesian None in
  let layout := Sample.layout 1 1 in
  let r := loadParticles Sample.runtime self 0 layout [] in
  let total :=
    (Sample.uniformDensity 1%float (center_args 1 layout [5%Z])
     * cell_volume 1 layout)%float in
  fst r = Normal tt
  /\ length (snd r) = 10%nat
  /\ total = 1%float
  /\ total_weight (snd r) <> total
  /\ exists t one,
       exact_total_weight (snd r) = Some t
       /\ exact total = Some one
       /\ ~ (t == one)%Q.
Proof.
  cbv zeta. split; [vm_compute; reflexivity|].
  split; [vm_compute; reflexivity|].
  split; [vm_compute; reflexivity|].
  split.
  - intro H. apply (f_equal (fun x => PrimFloat.eqb x 1%float)) in H.
    vm_compute in H. discriminate H.
  - eexists. eexists. split; [vm_compute; reflexivity|].
    split; [vm_compute; reflexivity|].
    intro H. vm_compute in H. discriminate H.
Qed.

(** C2 (as stated) fails: with density -1 in the only cell of the region and
    two particles per cell, the load returns normally and the cell receives
    its two particles, of weight -1/2. *)
Lemma C2_negative_density_is_loaded :
  let self := Sample.initializer (-1)%float 2 Cartesian None in
  let layout := Sample.layout 1 1 in
  let r := loadParticles Sample.runtime self 0 layout [] in
  (Sample.uniformDensity (-1)%float (center_args 1 layout [5%Z]) <? 0)%float = true
  /\ fst r = Normal tt
  /\ map weight (snd r) = [(-0.5)%float; (-0.5)%float]
  /\ map iCell (snd r) = [[5]; [5]].
Proof. cbv zeta. repeat split; vm_compute; reflexivity. Qed.

(** C2 (as amended): the loaders do not look at the sign of the density. A
    load whose profiles are present and whose magnetic branch cannot stop
    it returns normally, and a cell of the region whose density is negative
    receives its N particles like any other, each of weight
    [density(cellCenter) * cellVolume / N]. *)
Theorem C2_density_sign_unchecked
    (R : Runtime) (self : FluidParticleInitializer)
    (d : ScalarFunction) (bv tv : VectorFunction)
    (randSeed : Z) (layout : GridLayout) (container : list Particle)
    (cell : list Z) :
  density_ self = Some d ->
  bulkVelocity_ self = Some bv ->
  thermalVelocity_ self = Some tv ->
  field_ok R self (magneticField_ self) ->
  (1 <= dimension layout <= 3)%nat ->
  In cell (cells (dimension layout) layout) ->
  (d (center_args (dimension layout) layout cell) <? 0)%float = true ->
  exists before batch after,
    loadParticles R self randSeed layout container
    = (Normal tt, container ++ before ++ batch ++ after)
    /\ length batch = Z.to_nat (nbrParticlePerCell_ self)
    /\ Forall
         (fun p =>
            iCell p = map static_cast_int32 cell
            /\ weight p
               = (d (center_args (dimension layout) layout cell)
                  * cell_volume (dimension layout) layout
                  / double_of_uint32 (nbrParticlePerCell_ self))%float)
         batch.
Proof.
  intros Hd Hbv Htv Hmf Hdim Hin _.
  rewrite (loadParticles_run R self d bv tv Hd Hbv Htv Hmf) by assumption.
  destruct (region_split R self (dimension layout) layout d bv tv
              (magneticField_ self) (cells (dimension layout) layout)
              (mt19937_64 R (generator_seed (dimension layout) randSeed))
              cell Hin) as [g' [before [after E]]].
  exists before,
    (cell_particles R self (dimension layout) layout d bv tv
       (magneticField_ self) cell g'), after.
  rewrite E. split; [reflexivity|]. split.
  - apply cell_particles_length.
  - eapply Forall_impl; [|apply cell_particles_Forall].
    intros p (Hc & _ & Hw & _). now split.
Qed.

Lemma C2_density_sign_unchecked_witness :
  exists before batch after,
    loadParticles Sample.runtime
      (Sample.initializer (-1)%float 2 Cartesian None) 0 (Sample.layout 1 1) []
    = (Normal tt, [] ++ before ++ batch ++ after)
    /\ length batch = 2%nat
    /\ Forall
         (fun p =>
            iCell p = map static_cast_int32 [5]
            /\ weight p
               = (Sample.uniformDensity (-1)%float
                    (center_args 1 (Sample.layout 1 1) [5%Z])
                  * cell_volume 1 (Sample.layout 1 1)
                  / double_of_uint32 2)%float)
         batch.
Proof.
  apply (C2_density_sign_unchecked Sample.runtime
           (Sample.initializer (-1)%float 2 Cartesian None)
           (Sample.uniformDensity (-1)%float)
           (Sample.uniformVector Sample.alongX)
           (Sample.uniformVector Sample.still) 0 (Sample.layout 1 1) [] [5]);
    try reflexivity.
  - left; reflexivity.
  - simpl; lia.
  - vm_compute. left; reflexivity.
Defined.

Lemma cell_particles_iCell R self dim layout d bv tv mf cell g :
  Forall (fun p => iCell p = map static_cast_int32 cell)
         (cell_particles R self dim layout d bv tv mf cell g).
Proof.
  eapply Forall_impl; [|apply cell_particles_Forall].
  intros p (Hc & _). exact Hc.
Qed.

Lemma count_cell_particles R self dim layout d bv tv mf (i j : Z) g :
  0 <= i < 2 ^ 31 -> 0 <= j < 2 ^ 31 ->
  count_in_cell [j] (cell_particles R self dim layout d bv tv mf [i] g)
  = if Z.eqb i j then Z.to_nat (nbrParticlePerCell_ self) else 0%nat.
Proof.
  intros Hi Hj.
  pose proof (cell_particles_iCell R self dim layout d bv tv mf [i] g) as F.
  simpl in F. rewrite static_cast_int32_small in F by exact Hi.
  destruct (Z.eqb_spec i j) as [-> | Hne].
  - rewrite (count_in_cell_all _ _ F). apply cell_particles_length.
  - apply (count_in_cell_none [j] [i]); [congruence | exact F].
Qed.

(** C5: the end-to-end scenario. A 1D layout with physical cells
    [ix0 .. ix0+3] of volume 1, density 10, bulk velocity (1,0,0), zero
    thermal speed, 5 particles per cell, Cartesian basis, and a velocity
    sampler that returns the bulk velocity when the thermal speed is zero:
    the load appends exactly 20 particles, each of weight 2, of the
    configured charge and of velocity (1,0,0), and each of the four cell
    indices is carried by exactly 5 of them. *)
Theorem C5_end_to_end
    (R : Runtime) (self : FluidParticleInitializer)
    (d : ScalarFunction) (bv tv : VectorFunction)
    (randSeed : Z) (layout : GridLayout) (container : list Particle)
    (ix0 : Z) :
  (forall V g, maxwellianVelocity R V (0, 0, 0)%float g = V) ->
  dimension layout = 1%nat ->
  physicalStartIndex layout primal dirX = ix0 ->
  physicalEndIndex layout primal dirX = ix0 + 4 ->
  0 <= ix0 -> ix0 + 4 <= 2 ^ 31 ->
  nth 0 (meshSize layout) zero = 1%float ->
  density_ self = Some d -> (forall x, d x = 10%float) ->
  bulkVelocity_ self = Some bv -> (forall x, bv x = (1, 0, 0)%float) ->
  thermalVelocity_ self = Some tv -> (forall x, tv x = (0, 0, 0)%float) ->
  nbrParticlePerCell_ self = 5 ->
  basis_ self = Cartesian ->
  exists new,
    loadParticles R self randSeed layout container
    = (Normal tt, container ++ new)
    /\ length new = 20%nat
    /\ Forall (fun p => weight p = 2%float
                        /\ charge p = particleCharge_ self
                        /\ v p = (1, 0, 0)%float) new
    /\ forall k, 0 <= k < 4 -> count_in_cell [ix0 + k] new = 5%nat.
Proof.
  intros Hs Hdim H0 H1 Hlo Hhi Hvol Hd Hd10 Hbv Hbv1 Htv Htv0 HN HC.
  assert (Hmf : field_ok R self (magneticField_ self)) by (left; exact HC).
  rewrite (loadParticles_run R self d bv tv Hd Hbv Htv Hmf) by lia.
  rewrite Hdim. unfold cells, physical_range. rewrite H0, H1.
  unfold uint32. rewrite !Z.mod_small by lia.
  rewrite index_range_four. cbn [map region_particles].
  eexists. split; [reflexivity|]. rewrite app_nil_r. split; [|split].
  - rewrite !length_app, !cell_particles_length, HN. reflexivity.
  - repeat (apply Forall_app; split);
      (eapply Forall_impl; [|apply cell_particles_Forall]);
      intros p (_ & Hq & Hw & g' & Hv); (split; [|split; [exact Hq|]]).
    all: try (rewrite Hw, Hd10, HN; simpl cell_volume; rewrite Hvol;
              vm_compute; reflexivity).
    all: rewrite Hv; unfold rotate; rewrite HC; simpl;
      rewrite Hbv1, Htv0; apply Hs.
  - intros k Hk. rewrite !count_in_cell_app.
    rewrite !count_cell_particles by lia. rewrite HN.
    assert (Hc : k = 0 \/ k = 1 \/ k = 2 \/ k = 3) by lia.
    destruct Hc as [-> | [-> | [-> | ->]]];
      repeat match goal with
             | |- context [Z.eqb ?a ?b] =>
                 destruct (Z.eqb_spec a b); try lia
             end;
      reflexivity.
Qed.

Lemma maxwellianVelocity_still (generator : Type)
    (normalDeviates : generator -> vec3) (V : vec3) (g : generator) :
  Kernels.maxwellianVelocity generator normalDeviates V (0, 0, 0)%float g = V.
Proof.
  unfold Kernels.maxwellianVelocity. destruct V as [[V1 V2] V3].
  destruct (normalDeviates g) as [[z1 z2] z3]. reflexivity.
Qed.

Lemma C5_end_to_end_witness :
  exists new,
    loadParticles Sample.runtime (Sample.initializer 10%float 5 Cartesian None)
      0 (Sample.layout 1 4) []
    = (Normal tt, [] ++ new)
    /\ length new = 20%nat
    /\ Forall (fun p => weight p = 2%float
                        /\ charge p = 1%float
                        /\ v p = (1, 0, 0)%float) new
    /\ forall k, 0 <= k < 4 -> count_in_cell [5 + k] new = 5%nat.
Proof.
  apply (C5_end_to_end Sample.runtime
           (Sample.initializer 10%float 5 Cartesian None)
           (Sample.uniformDensity 10%float)
           (Sample.uniformVector Sample.alongX)
           (Sample.uniformVector Sample.still) 0 (Sample.layout 1 4) [] 5);
    try reflexivity; try lia.
  intros V g. apply maxwellianVelocity_still.
Defined.

(** C3 (as stated) fails: constructing with the magnetic basis and a null
    magnetic-field pointer returns an initializer. *)
Lemma C3_construction_succeeds :
  exists self,
    newFluidParticleInitializer
      (Some (Sample.uniformDensity 10%float))
      (Some (Sample.uniformVector Sample.alongX))
      (Some (Sample.uniformVector Sample.still))
      1%float 5 Magnetic None
    = Normal self
    /\ basis_ self = Magnetic
    /\ magneticField_ self = None
    /\ Normal self <> Thrown ConfigurationError.
Proof. eexists. repeat split. discriminate. Qed.

(** C3 (as amended): the constructor checks nothing. Every construction
    returns an initializer that holds the arguments as given (the count of
    particles per cell as an [uint32]), and a load of that initializer is
    left by an exception only if [localMagneticBasis] threw it. *)
Theorem C3_constructor_checks_nothing
    (density : option ScalarFunction)
    (bulkVelocity thermalVelocity : option VectorFunction)
    (particleCharge : double) (nbrParticlesPerCell : Z) (basis : Basis)
    (magneticField : option VectorFunction) :
  exists self,
    newFluidParticleInitializer density bulkVelocity thermalVelocity
      particleCharge nbrParticlesPerCell basis magneticField
    = Normal self
    /\ density_ self = density
    /\ bulkVelocity_ self = bulkVelocity
    /\ thermalVelocity_ self = thermalVelocity
    /\ particleCharge_ self = particleCharge
    /\ nbrParticlePerCell_ self = uint32 nbrParticlesPerCell
    /\ basis_ self = basis
    /\ magneticField_ self = magneticField
    /\ forall R randSeed layout container e,
         fst (loadParticles R self randSeed layout container) = Thrown e ->
         exists B, localMagneticBasis R B = Thrown e.
Proof.
  eexists. split; [reflexivity|]. repeat split.
  intros R randSeed layout container e. apply loadParticles_throws.
Qed.

Lemma region_events_field R self dim layout d bv tv randSeed container f c :
  basis_ self = Magnetic ->
  magneticField_ self = Some f ->
  In c (cells dim layout) ->
  In (Evaluate MagneticField (field_args dim layout c))
     (trace (loaded R self d bv tv dim randSeed layout container)).
Proof.
  intros HM Hf Hin. unfold loaded. cbv zeta. cbn [trace].
  apply in_or_app. right. unfold region_events. apply in_flat_map.
  exists c. split; [exact Hin|]. apply in_or_app. right.
  unfold field_events. rewrite HM, Hf. now left.
Qed.

(** C7 fails in the 2D loader: with the magnetic basis, on a 2D layout of
    one cell of center (0.5, 0.5) and of origin z = 7, the magnetic field is
    evaluated with the three coordinates (0.5, 0.5, 7), the third of which
    is [origin.z] and no coordinate of the cell center, while the three
    moment profiles are evaluated with the two coordinates of the center. *)
Theorem C7_field_evaluated_with_origin_z :
  let B := Sample.uniformVector Sample.alongX in
  let self := Sample.initializer 10%float 1 Magnetic (Some B) in
  let layout := Sample.layout 2 1 in
  let r := loadParticles2D_ Sample.runtime self 0 layout [] in
  fst r = Normal tt
  /\ dimension layout = 2%nat
  /\ cellCenteredCoordinates layout [5; 5] = [0.5%float; 0.5%float]
  /\ trace (snd r)
     = [Dereference Density false; Dereference BulkVelocity false;
        Dereference ThermalVelocity false; Dereference MagneticField false;
        Evaluate Density [0.5%float; 0.5%float];
        Evaluate BulkVelocity [0.5%float; 0.5%float];
        Evaluate ThermalVelocity [0.5%float; 0.5%float];
        Evaluate MagneticField [0.5%float; 0.5%float; 7%float]].
Proof. cbv zeta. repeat split; vm_compute; reflexivity. Qed.

(** C8: the seeding policy. The 1D loader does not depend on the value of
    the random device: two runs on the same initializer, layout and
    container are equal, and the generator it ends with is reached by
    uniform draws from [mt19937_64(1)]. The generators of the 2D and 3D
    loaders are reached from [mt19937_64(randSeed())], and there are runs of
    each that differ only by the value of the random device and append
    different particles. *)
Theorem C8_seeding_policy :
  (forall R self randSeed1 randSeed2 layout container,
     loadParticles1D_ R self randSeed1 layout container
     = loadParticles1D_ R self randSeed2 layout container)
  /\ (forall R self randSeed layout container,
        exists k,
          gen (snd (loadParticles1D_ R self randSeed layout container))
          = advance_by k (mt19937_64 R 1))
  /\ (forall R self randSeed layout container,
        exists k,
          gen (snd (loadParticles2D_ R self randSeed layout container))
          = advance_by k (mt19937_64 R randSeed))
  /\ (forall R self randSeed layout container,
        exists k,
          gen (snd (loadParticles3D_ R self randSeed layout container))
          = advance_by k (mt19937_64 R randSeed))
  /\ (exists R self layout container randSeed1 randSeed2,
        observed R (loadParticles2D_ R self randSeed1 layout container)
        <> observed R (loadParticles2D_ R self randSeed2 layout container))
  /\ (exists R self layout container randSeed1 randSeed2,
        observed R (loadParticles3D_ R self randSeed1 layout container)
        <> observed R (loadParticles3D_ R self randSeed2 layout container)).
Proof.
  split; [reflexivity|].
  split; [intros; apply proper_loadParticles1D|].
  split; [intros; apply proper_loadParticles2D|].
  split; [intros; apply proper_loadParticles3D|].
  split.
  - exists Sample.runtime, (Sample.initializer 10%float 1 Cartesian None),
      (Sample.layout 2 1), [], 1, 2.
    intro H.
    apply (f_equal
             (fun r =>
                same_offsets
                  (snd (observed Sample.runtime
                          (loadParticles2D_ Sample.runtime
                             (Sample.initializer 10%float 1 Cartesian None)
                             1 (Sample.layout 2 1) [])))
                  (snd r))) in H.
    vm_compute in H. discriminate H.
  - exists Sample.runtime, (Sample.initializer 10%float 1 Cartesian None),
      (Sample.layout 3 1), [], 1, 2.
    intro H.
    apply (f_equal
             (fun r =>
                same_offsets
                  (snd (observed Sample.runtime
                          (loadParticles3D_ Sample.runtime
                             (Sample.initializer 10%float 1 Cartesian None)
                             1 (Sample.layout 3 1) [])))
                  (snd r))) in H.
    vm_compute in H. discriminate H.
Qed.

Lemma advance_by_with_sampler R sampler k (g : generator R) :
  @advance_by (with_sampler R sampler) k g = @advance_by R k g.
Proof. revert g; induction k as [|k IH]; intro g; simpl; [reflexivity | apply IH]. Qed.

Lemma field_ok_with_sampler R sampler self mf :
  field_ok R self mf -> field_ok (with_sampler R sampler) self mf.
Proof. intro H. exact H. Qed.

(** C9: the generator and the velocity sampler. Taking the copy that is
    passed to [maxwellianVelocity] leaves the state as it is; one turn of the
    particle loop moves the generator by exactly one uniform draw per
    dimension; every run of a loader, however it ends, leaves a generator
    reached from the initial one by uniform draws alone; a run that ends
    normally has made [cells * N * dimension] draws; and putting any other
    function in the place of [maxwellianVelocity] leaves the final generator
    the same. *)
Theorem C9_generator_moves_by_offset_draws_only
    (R : Runtime) (self : FluidParticleInitializer)
    (d : ScalarFunction) (bv tv : VectorFunction)
    (randSeed : Z) (layout : GridLayout) (container : list Particle) :
  density_ self = Some d ->
  bulkVelocity_ self = Some bv ->
  thermalVelocity_ self = Some tv ->
  field_ok R self (magneticField_ self) ->
  let n := Z.to_nat (nbrParticlePerCell_ self) in
  (forall s : LoadState R, copy_generator s = (Normal (gen s), s))
  /\ (forall dim V Vth basis w cell (s : LoadState R),
        gen (snd (load_particle R self dim V Vth basis w cell s))
        = advance_by dim (gen s))
  /\ gen (snd (loadParticles1D_ R self randSeed layout container))
     = advance_by (length (cells 1 layout) * (n * 1)) (mt19937_64 R 1)
  /\ gen (snd (loadParticles2D_ R self randSeed layout container))
     = advance_by (length (cells 2 layout) * (n * 2)) (mt19937_64 R randSeed)
  /\ gen (snd (loadParticles3D_ R self randSeed layout container))
     = advance_by (length (cells 3 layout) * (n * 3)) (mt19937_64 R randSeed)
  /\ forall sampler,
       gen (snd (loadParticles1D_ (with_sampler R sampler) self randSeed
                   layout container))
       = gen (snd (loadParticles1D_ R self randSeed layout container))
       /\ gen (snd (loadParticles2D_ (with_sampler R sampler) self randSeed
                      layout container))
          = gen (snd (loadParticles2D_ R self randSeed layout container))
       /\ gen (snd (loadParticles3D_ (with_sampler R sampler) self randSeed
                      layout container))
          = gen (snd (loadParticles3D_ R self randSeed layout container)).
Proof.
  intros Hd Hbv Htv Hmf n.
  split; [reflexivity|].
  split; [intros; now rewrite load_particle_run|].
  rewrite (loadParticles1D_run R self d bv tv Hd Hbv Htv Hmf).
  rewrite (loadParticles2D_run R self d bv tv Hd Hbv Htv Hmf).
  rewrite (loadParticles3D_run R self d bv tv Hd Hbv Htv Hmf).
  repeat (split; [reflexivity|]).
  intro sampler.
  pose proof (field_ok_with_sampler R sampler self _ Hmf) as Hmf'.
  rewrite (loadParticles1D_run (with_sampler R sampler) self d bv tv
             Hd Hbv Htv Hmf').
  rewrite (loadParticles2D_run (with_sampler R sampler) self d bv tv
             Hd Hbv Htv Hmf').
  rewrite (loadParticles3D_run (with_sampler R sampler) self d bv tv
             Hd Hbv Htv Hmf').
  unfold loaded. cbv zeta. cbn [snd gen].
  rewrite !advance_by_with_sampler. repeat split; reflexivity.
Qed.

Lemma C9_generator_moves_by_offset_draws_only_witness :
  gen (snd (loadParticles2D_ Sample.runtime
              (Sample.initializer 10%float 5 Cartesian None) 3
              (Sample.layout 2 2) []))
  = advance_by (length (cells 2 (Sample.layout 2 2)) * (5 * 2))
      (mt19937_64 Sample.runtime 3).
Proof.
  apply (C9_generator_moves_by_offset_draws_only Sample.runtime
           (Sample.initializer 10%float 5 Cartesian None)
           (Sample.uniformDensity 10%float)
           (Sample.uniformVector Sample.alongX)
           (Sample.uniformVector Sample.still) 3 (Sample.layout 2 2) []);
    try reflexivity.
  left; reflexivity.
Defined.

(** C10 fails: every loader evaluates [*magneticField_] before its cell
    loops. For an initializer of the Cartesian basis whose magnetic-field
    pointer is null (the default arguments of the constructor), whatever
    the moment profiles, the count of particles per cell, the layout and
    the container, the run of each loader dereferences the null pointer. *)
Theorem C10_null_field_dereferenced
    (R : Runtime) (d : ScalarFunction) (bv tv : VectorFunction)
    (particleCharge : double) (nbrParticlesPerCell : Z)
    (randSeed : Z) (layout : GridLayout) (container : list Particle) :
  exists self,
    newFluidParticleInitializer (Some d) (Some bv) (Some tv) particleCharge
      nbrParticlesPerCell Cartesian None
    = Normal self
    /\ In (Dereference MagneticField true)
          (trace (snd (loadParticles1D_ R self randSeed layout container)))
    /\ In (Dereference MagneticField true)
          (trace (snd (loadParticles2D_ R self randSeed layout container)))
    /\ In (Dereference MagneticField true)
          (trace (snd (loadParticles3D_ R self randSeed layout container))).
Proof.
  eexists. split; [reflexivity|].
  match goal with
  | |- context [loadParticles1D_ R ?s] =>
      assert (Hmf : field_ok R s (magneticField_ s)) by (left; reflexivity);
      rewrite (loadParticles1D_run R s d bv tv eq_refl eq_refl eq_refl Hmf);
      rewrite (loadParticles2D_run R s d bv tv eq_refl eq_refl eq_refl Hmf);
      rewrite (loadParticles3D_run R s d bv tv eq_refl eq_refl eq_refl Hmf)
  end.
  unfold loaded. cbv zeta. cbn [snd trace entered].
  repeat split; apply in_or_app; left; simpl; tauto.
Qed.

(** * Further properties of the loaders *)

Section Flat.

Variable R : Runtime.
Variable self : FluidParticleInitializer.

Lemma for_each_ext {A} (l : list A) (body1 body2 : A -> Load R unit) :
  (forall x s, body1 x s = body2 x s) ->
  forall s, for_each l body1 s = for_each l body2 s.
Proof.
  intro H. induction l as [|x l IH]; intro s; simpl; [reflexivity|].
  unfold bind. rewrite H. destruct (body2 x s) as [[[]|e|p] s']; auto.
Qed.

Lemma for_each_app {A} (l1 l2 : list A) (body : A -> Load R unit) s :
  for_each (l1 ++ l2) body s
  = bind (for_each l1 body) (fun _ => for_each l2 body) s.
Proof.
  revert s; induction l1 as [|x l1 IH]; intro s; simpl.
  - reflexivity.
  - unfold bind. destruct (body x s) as [[[]|e|p] s']; try reflexivity.
    rewrite IH. reflexivity.
Qed.

Lemma for_each_map {A B} (g : A -> B) (l : list A) (body : B -> Load R unit) s :
  for_each (map g l) body s = for_each l (fun x => body (g x)) s.
Proof.
  revert s; induction l as [|x l IH]; intro s; simpl; [reflexivity|].
  unfold bind. destruct (body (g x) s) as [[[]|e|p] s']; auto.
Qed.

Lemma for_each_flat_map {A B} (g : A -> list B) (l : list A)
    (body : B -> Load R unit) s :
  for_each (flat_map g l) body s
  = for_each l (fun x => for_each (g x) body) s.
Proof.
  revert s; induction l as [|x l IH]; intro s; simpl; [reflexivity|].
  rewrite for_each_app. unfold bind.
  destruct (for_each (g x) body s) as [[[]|e|p] s']; auto.
Qed.

Lemma for_each_steps_in {A} (l : list A) (body : A -> Load R unit)
    (step : LoadState R -> A -> LoadState R) :
  (forall x s, In x l -> body x s = (Normal tt, step s x)) ->
  forall s, for_each l body s = (Normal tt, fold_left step l s).
Proof.
  induction l as [|x l IH]; intros H s; simpl; [reflexivity|].
  unfold bind. rewrite H by now left.
  apply IH. intros y s' Hy. apply H. now right.
Qed.

Variables (d : ScalarFunction) (bv tv : VectorFunction).
Hypothesis Hd : density_ self = Some d.
Hypothesis Hbv : bulkVelocity_ self = Some bv.
Hypothesis Htv : thermalVelocity_ self = Some tv.

Ltac bind_references :=
  do 4 (unfold bind at 1; unfold deref at 1;
        unfold bind at 1, log at 1, ret at 1);
  cbv beta iota zeta; simpl particles; simpl gen; simpl trace.

(** Each loader is one loop over the cells of its region. *)
Lemma loadParticles1D_cells randSeed layout container :
  loadParticles1D_ R self randSeed layout container
  = for_each (cells 1 layout)
      (fun c => cell_run R self 1 c (center_args 1 layout c)
                  (field_args 1 layout c) (cell_volume 1 layout) d bv tv
                  (magneticField_ self))
      (entered R self container (mt19937_64 R 1)).
Proof.
  unfold loadParticles1D_. cbv zeta. bind_references.
  unfold cells. rewrite for_each_map.
  unfold entered. rewrite Hd, Hbv, Htv. cbn [app is_null].
  apply for_each_ext. intros ix s. apply load_cell1D_run.
Qed.

Lemma loadParticles2D_cells randSeed layout container :
  loadParticles2D_ R self randSeed layout container
  = for_each (cells 2 layout)
      (fun c => cell_run R self 2 c (center_args 2 layout c)
                  (field_args 2 layout c) (cell_volume 2 layout) d bv tv
                  (magneticField_ self))
      (entered R self container (mt19937_64 R randSeed)).
Proof.
  unfold loadParticles2D_. cbv zeta. bind_references.
  unfold cells. rewrite for_each_flat_map.
  unfold entered. rewrite Hd, Hbv, Htv. cbn [app is_null].
  apply for_each_ext. intros ix s. rewrite for_each_map.
  apply for_each_ext. intros iy s'. apply load_cell2D_run.
Qed.

Lemma loadParticles3D_cells randSeed layout container :
  loadParticles3D_ R self randSeed layout container
  = for_each (cells 3 layout)
      (fun c => cell_run R self 3 c (center_args 3 layout c)
                  (field_args 3 layout c) (cell_volume 3 layout) d bv tv
                  (magneticField_ self))
      (entered R self container (mt19937_64 R randSeed)).
Proof.
  unfold loadParticles3D_. cbv zeta. bind_references.
  unfold cells. rewrite for_each_flat_map.
  unfold entered. rewrite Hd, Hbv, Htv. cbn [app is_null].
  apply for_each_ext. intros ix s. rewrite for_each_flat_map.
  apply for_each_ext. intros iy s'. rewrite for_each_map.
  apply for_each_ext. intros iz s''. apply load_cell3D_run.
Qed.

Lemma loadParticles_cells randSeed layout container :
  (1 <= dimension layout <= 3)%nat ->
  loadParticles R self randSeed layout container
  = observed R
      (for_each (cells (dimension layout) layout)
         (fun c => cell_run R self (dimension layout) c
                     (center_args (dimension layout) layout c)
                     (field_args (dimension layout) layout c)
                     (cell_volume (dimension layout) layout) d bv tv
                     (magneticField_ self))
         (entered R self container
            (mt19937_64 R (generator_seed (dimension layout) randSeed)))).
Proof.
  intro H. unfold loadParticles.
  destruct (dimension layout) as [|[|[|[|n]]]]; try lia.
  - now rewrite loadParticles1D_cells.
  - now rewrite loadParticles2D_cells.
  - now rewrite loadParticles3D_cells.
Qed.

End Flat.

Ltac run_references :=
  do 4 (unfold bind at 1; unfold deref at 1;
        unfold bind at 1, log at 1, ret at 1);
  cbv beta iota zeta.

Lemma for_each_skip R {A} (l : list A) (body : A -> Load R unit) :
  (forall x s, body x s = (Normal tt, s)) ->
  forall s, for_each l body s = (Normal tt, s).
Proof.
  intro H. induction l as [|x l IH]; intro s; simpl; [reflexivity|].
  unfold bind. rewrite H. apply IH.
Qed.

Lemma physical_range_empty layout dir :
  extent layout dir = 0%nat -> physical_range layout dir = [].
Proof.
  unfold extent, physical_range, index_range. intros ->. reflexivity.
Qed.

Lemma physical_range_length layout dir :
  length (physical_range layout dir) = extent layout dir.
Proof.
  unfold physical_range, index_range, extent.
  now rewrite length_map, length_seq.
Qed.

Lemma flat_map_length_constant {A B} (f : A -> list B) (l : list A) (k : nat) :
  (forall x, length (f x) = k) -> length (flat_map f l) = (length l * k)%nat.
Proof.
  intro H. induction l as [|x l IH]; simpl; [reflexivity|].
  now rewrite length_app, H, IH.
Qed.

Lemma cells_length dim layout :
  length (cells dim layout) = region_size dim layout.
Proof.
  unfold cells, region_size.
  destruct dim as [|[|[|n]]].
  - rewrite (flat_map_length_constant _ _
               (extent layout dirY * extent layout dirZ)).
    + now rewrite physical_range_length, Nat.mul_assoc.
    + intro ix. rewrite (flat_map_length_constant _ _ (extent layout dirZ)).
      * now rewrite physical_range_length.
      * intro iy. now rewrite length_map, physical_range_length.
  - now rewrite length_map, physical_range_length.
  - rewrite (flat_map_length_constant _ _ (extent layout dirY)).
    + now rewrite physical_range_length.
    + intro ix. now rewrite length_map, physical_range_length.
  - rewrite (flat_map_length_constant _ _
               (extent layout dirY * extent layout dirZ)).
    + now rewrite physical_range_length, Nat.mul_assoc.
    + intro ix. rewrite (flat_map_length_constant _ _ (extent layout dirZ)).
      * now rewrite physical_range_length.
      * intro iy. now rewrite length_map, physical_range_length.
Qed.

Lemma cells_cell_length dim layout c :
  (1 <= dim <= 3)%nat -> In c (cells dim layout) -> length c = dim.
Proof.
  intros Hdim. unfold cells. destruct dim as [|[|[|[|n]]]]; try lia.
  - intro H. apply in_map_iff in H. destruct H as [ix [<- _]]. reflexivity.
  - intro H. apply in_flat_map in H. destruct H as [ix [_ H]].
    apply in_map_iff in H. destruct H as [iy [<- _]]. reflexivity.
  - intro H. apply in_flat_map in H. destruct H as [ix [_ H]].
    apply in_flat_map in H. destruct H as [iy [_ H]].
    apply in_map_iff in H. destruct H as [iz [<- _]]. reflexivity.
Qed.

Lemma offsets_length R dim (g : generator R) : length (offsets dim g) = dim.
Proof.
  revert g; induction dim as [|n IH]; intro g; simpl; [reflexivity|].
  now rewrite IH.
Qed.

Section RegionShape.

Variable R : Runtime.
Variable self : FluidParticleInitializer.
Variables (dim : nat) (layout : GridLayout).
Variables (d : ScalarFunction) (bv tv : VectorFunction).
Variable mf : option VectorFunction.

Abbreviation N := (Z.to_nat (nbrParticlePerCell_ self)).

Lemma region_particles_length cs g :
  length (region_particles R self dim layout d bv tv mf cs g)
  = (length cs * N)%nat.
Proof.
  revert g; induction cs as [|c cs IH]; intro g; simpl; [reflexivity|].
  now rewrite length_app, IH, cell_particles_length.
Qed.

Lemma batch_iCell V Vth basis w cell n g :
  map iCell (batch R self dim V Vth basis w cell n g)
  = repeat (map static_cast_int32 cell) n.
Proof.
  revert g; induction n as [|n IH]; intro g; simpl; [reflexivity|].
  now rewrite IH.
Qed.

Lemma region_particles_iCell cs g :
  map iCell (region_particles R self dim layout d bv tv mf cs g)
  = flat_map (fun c => repeat (map static_cast_int32 c) N) cs.
Proof.
  revert g; induction cs as [|c cs IH]; intro g; simpl; [reflexivity|].
  rewrite map_app, IH. unfold cell_particles. cbv zeta.
  now rewrite batch_iCell.
Qed.

Lemma offsets_add a b (g : generator R) :
  offsets (a + b) g = offsets a g ++ offsets b (advance_by a g).
Proof.
  revert g; induction a as [|a IH]; intro g; simpl; [reflexivity|].
  now rewrite IH.
Qed.

Lemma batch_delta V Vth basis w cell n g :
  flat_map delta (batch R self dim V Vth basis w cell n g)
  = offsets (n * dim) g.
Proof.
  revert g; induction n as [|n IH]; intro g; simpl; [reflexivity|].
  now rewrite IH, offsets_add.
Qed.

Lemma region_particles_delta cs g :
  flat_map delta (region_particles R self dim layout d bv tv mf cs g)
  = offsets (length cs * (N * dim)) g.
Proof.
  revert g; induction cs as [|c cs IH]; intro g; simpl; [reflexivity|].
  rewrite flat_map_app, IH, offsets_add. unfold cell_particles. cbv zeta.
  now rewrite batch_delta.
Qed.

End RegionShape.

(** X1: a load never removes or rewrites an entry of the container. Whatever
    the initializer (null profiles included), the layout, the value of the
    random device and the way the load ends, the container it leaves is the
    one it received followed by the particles it pushed. *)
Theorem X1_load_only_appends
    (R : Runtime) (self : FluidParticleInitializer)
    (randSeed : Z) (layout : GridLayout) (container : list Particle) :
  exists new,
    snd (loadParticles R self randSeed layout container) = container ++ new.
Proof.
  unfold loadParticles, observed.
  destruct (dimension layout) as [|[|[|[|n]]]]; simpl.
  - exists []. now rewrite app_nil_r.
  - apply proper_loadParticles1D.
  - apply proper_loadParticles2D.
  - apply proper_loadParticles3D.
  - exists []. now rewrite app_nil_r.
Qed.

(** X2: the number of particles of a load that runs to its end is the
    number of cells of the region times the count of particles per cell,
    the number of cells being the product over the directions of the layout
    of [physicalEndIndex - physicalStartIndex] (0 when the end is not above
    the start). *)
Theorem X2_particle_count
    (R : Runtime) (self : FluidParticleInitializer)
    (d : ScalarFunction) (bv tv : VectorFunction)
    (randSeed : Z) (layout : GridLayout) (container : list Particle) :
  density_ self = Some d ->
  bulkVelocity_ self = Some bv ->
  thermalVelocity_ self = Some tv ->
  field_ok R self (magneticField_ self) ->
  (1 <= dimension layout <= 3)%nat ->
  exists new,
    loadParticles R self randSeed layout container
    = (Normal tt, container ++ new)
    /\ length new
       = (region_size (dimension layout) layout
          * Z.to_nat (nbrParticlePerCell_ self))%nat.
Proof.
  intros Hd Hbv Htv Hmf Hdim.
  rewrite (loadParticles_run R self d bv tv Hd Hbv Htv Hmf) by assumption.
  eexists. split; [reflexivity|].
  now rewrite region_particles_length, cells_length.
Qed.

Lemma X2_particle_count_witness :
  exists new,
    loadParticles Sample.runtime (Sample.initializer 10%float 5 Cartesian None)
      0 (Sample.layout 3 2) []
    = (Normal tt, [] ++ new)
    /\ length new = (region_size 3 (Sample.layout 3 2) * 5)%nat.
Proof.
  apply (X2_particle_count Sample.runtime
           (Sample.initializer 10%float 5 Cartesian None)
           (Sample.uniformDensity 10%float)
           (Sample.uniformVector Sample.alongX)
           (Sample.uniformVector Sample.still) 0 (Sample.layout 3 2) []);
    try reflexivity.
  - left; reflexivity.
  - simpl; lia.
Defined.

Lemma NoDup_map_injective {A B} (f : A -> B) (l : list A) :
  (forall x y, f x = f y -> x = y) -> NoDup l -> NoDup (map f l).
Proof.
  intros Hf Hl. apply NoDup_map_NoDup_ForallPairs; [|exact Hl].
  intros x y _ _. apply Hf.
Qed.

Lemma NoDup_flat_map {A B} (f : A -> list B) (l : list A) :
  NoDup l ->
  (forall x, NoDup (f x)) ->
  (forall x y a, In a (f x) -> In a (f y) -> x = y) ->
  NoDup (flat_map f l).
Proof.
  intros Hl Hf Hd. induction Hl as [|x l Hx Hl IH]; simpl; [constructor|].
  apply NoDup_app; [apply Hf | exact IH |].
  intros a Ha Hin. apply in_flat_map in Hin. destruct Hin as [y [Hy Hay]].
  apply Hx. now rewrite (Hd x y a Ha Hay).
Qed.

Lemma index_range_NoDup i0 i1 : NoDup (index_range i0 i1).
Proof.
  unfold index_range. apply NoDup_map_injective; [|apply seq_NoDup].
  intros x y H. lia.
Qed.

Lemma index_range_bounds i0 i1 x : In x (index_range i0 i1) -> i0 <= x < i1.
Proof.
  unfold index_range. intro H. apply in_map_iff in H.
  destruct H as [k [<- Hk]]. apply in_seq in Hk. lia.
Qed.

Lemma uint32_bounds z : 0 <= uint32 z < 2 ^ 32.
Proof. unfold uint32. apply Z.mod_pos_bound. lia. Qed.

Lemma physical_range_bounds layout dir x :
  In x (physical_range layout dir) -> 0 <= x < 2 ^ 32.
Proof.
  unfold physical_range. intro H. apply index_range_bounds in H.
  pose proof (uint32_bounds (physicalStartIndex layout primal dir)).
  pose proof (uint32_bounds (physicalEndIndex layout primal dir)). lia.
Qed.

Lemma cells_NoDup dim layout : NoDup (cells dim layout).
Proof.
  assert (H3 : NoDup (cells 3 layout)).
  { unfold cells. apply NoDup_flat_map.
    - apply index_range_NoDup.
    - intro ix. apply NoDup_flat_map.
      + apply index_range_NoDup.
      + intro iy. apply NoDup_map_injective; [|apply index_range_NoDup].
        intros x y H. now injection H.
      + intros x y a Hx Hy. apply in_map_iff in Hx. apply in_map_iff in Hy.
        destruct Hx as [z [<- _]]. destruct Hy as [z' [E _]]. now injection E.
    - intros x y a Hx Hy. apply in_flat_map in Hx. apply in_flat_map in Hy.
      destruct Hx as [u [_ Hx]]. destruct Hy as [u' [_ Hy]].
      apply in_map_iff in Hx. apply in_map_iff in Hy.
      destruct Hx as [z [<- _]]. destruct Hy as [z' [E _]]. now injection E. }
  destruct dim as [|[|[|n]]]; try exact H3.
  - unfold cells. apply NoDup_map_injective; [|apply index_range_NoDup].
    intros x y H. now injection H.
  - unfold cells. apply NoDup_flat_map.
    + apply index_range_NoDup.
    + intro ix. apply NoDup_map_injective; [|apply index_range_NoDup].
      intros x y H. now injection H.
    + intros x y a Hx Hy. apply in_map_iff in Hx. apply in_map_iff in Hy.
      destruct Hx as [z [<- _]]. destruct Hy as [z' [E _]]. now injection E.
Qed.

Lemma cells_bounds dim layout c :
  In c (cells dim layout) -> Forall (fun z => 0 <= z < 2 ^ 32) c.
Proof.
  assert (H3 : In c (cells 3 layout) -> Forall (fun z => 0 <= z < 2 ^ 32) c).
  { unfold cells. intro H. apply in_flat_map in H. destruct H as [ix [Hx H]].
    apply in_flat_map in H. destruct H as [iy [Hy H]].
    apply in_map_iff in H. destruct H as [iz [<- Hz]].
    repeat constructor; eapply physical_range_bounds; eassumption. }
  destruct dim as [|[|[|n]]]; try exact H3.
  - unfold cells. intro H. apply in_map_iff in H. destruct H as [ix [<- Hx]].
    repeat constructor; eapply physical_range_bounds; eassumption.
  - unfold cells. intro H. apply in_flat_map in H. destruct H as [ix [Hx H]].
    apply in_map_iff in H. destruct H as [iy [<- Hy]].
    repeat constructor; eapply physical_range_bounds; eassumption.
Qed.

Lemma static_cast_int32_injective a b :
  0 <= a < 2 ^ 32 -> 0 <= b < 2 ^ 32 ->
  static_cast_int32 a = static_cast_int32 b -> a = b.
Proof.
  intros Ha Hb. unfold static_cast_int32.
  rewrite !Z.mod_small by assumption.
  destruct (Z.ltb_spec a (2 ^ 31)), (Z.ltb_spec b (2 ^ 31)); lia.
Qed.

Lemma map_static_cast_int32_injective c c' :
  Forall (fun z => 0 <= z < 2 ^ 32) c ->
  Forall (fun z => 0 <= z < 2 ^ 32) c' ->
  map static_cast_int32 c = map static_cast_int32 c' -> c = c'.
Proof.
  intro H. revert c'. induction H as [|a c Ha _ IH]; intros c' H' E.
  - destruct c'; [reflexivity | discriminate].
  - destruct H' as [|b c' Hb H']; [discriminate|].
    simpl in E. injection E as E1 E2.
    f_equal; [now apply static_cast_int32_injective | now apply IH].
Qed.

Section Coverage.

Variable R : Runtime.
Variable self : FluidParticleInitializer.
Variables (dim : nat) (layout : GridLayout).
Variables (d : ScalarFunction) (bv tv : VectorFunction).
Variable mf : option VectorFunction.

Abbreviation N := (Z.to_nat (nbrParticlePerCell_ self)).

Lemma count_region_none k cs g :
  (forall c, In c cs -> map static_cast_int32 c <> k) ->
  count_in_cell k (region_particles R self dim layout d bv tv mf cs g) = 0%nat.
Proof.
  revert g; induction cs as [|c cs IH]; intros g H; simpl; [reflexivity|].
  rewrite count_in_cell_app, IH by (intros c' Hc'; apply H; now right).
  rewrite (count_in_cell_none k (map static_cast_int32 c)).
  - reflexivity.
  - apply H. now left.
  - apply cell_particles_iCell.
Qed.

Lemma count_region_once c cs g :
  NoDup cs -> In c cs ->
  (forall c', In c' cs ->
     map static_cast_int32 c' = map static_cast_int32 c -> c' = c) ->
  count_in_cell (map static_cast_int32 c)
    (region_particles R self dim layout d bv tv mf cs g)
  = N.
Proof.
  intros Hnd. revert g. induction Hnd as [|c0 cs Hc0 Hnd IH]; intros g Hin Hinj.
  - destruct Hin.
  - simpl. rewrite count_in_cell_app. destruct Hin as [->|Hin].
    + rewrite (count_in_cell_all _ _ (cell_particles_iCell _ _ _ _ _ _ _ _ _ _)).
      rewrite cell_particles_length, count_region_none; [lia|].
      intros c' Hc' E. apply Hc0. rewrite <- (Hinj c'); [exact Hc'| now right | exact E].
    + rewrite (count_in_cell_none _ (map static_cast_int32 c0)).
      * apply IH; [exact Hin|]. intros c' Hc'. apply Hinj. now right.
      * intro E. apply Hc0. rewrite (Hinj c0); [exact Hin | now left | exact E].
      * apply cell_particles_iCell.
Qed.

End Coverage.

(** X4: every particle a load pushes carries the charge of the initializer,
    as many cell indices as the layout has dimensions and as many sub-cell
    offsets. *)
Theorem X4_particle_shape
    (R : Runtime) (self : FluidParticleInitializer)
    (d : ScalarFunction) (bv tv : VectorFunction)
    (randSeed : Z) (layout : GridLayout) (container : list Particle) :
  density_ self = Some d ->
  bulkVelocity_ self = Some bv ->
  thermalVelocity_ self = Some tv ->
  field_ok R self (magneticField_ self) ->
  (1 <= dimension layout <= 3)%nat ->
  exists new,
    loadParticles R self randSeed layout container
    = (Normal tt, container ++ new)
    /\ Forall (fun p => charge p = particleCharge_ self
                        /\ length (iCell p) = dimension layout
                        /\ length (delta p) = dimension layout) new.
Proof.
  intros Hd Hbv Htv Hmf Hdim.
  rewrite (loadParticles_run R self d bv tv Hd Hbv Htv Hmf) by assumption.
  eexists. split; [reflexivity|].
  apply region_Forall. intros c g Hc. unfold cell_particles. cbv zeta.
  eapply Forall_impl; [|apply batch_Forall].
  intros p [g' ->]. simpl. split; [reflexivity|].
  rewrite length_map, offsets_length.
  now rewrite (cells_cell_length _ _ _ Hdim Hc).
Qed.

Lemma X4_particle_shape_witness :
  exists new,
    loadParticles Sample.runtime (Sample.initializer 10%float 2 Cartesian None)
      0 (Sample.layout 2 2) []
    = (Normal tt, [] ++ new)
    /\ Forall (fun p => charge p = 1%float
                        /\ length (iCell p) = 2%nat
                        /\ length (delta p) = 2%nat) new.
Proof.
  apply (X4_particle_shape Sample.runtime
           (Sample.initializer 10%float 2 Cartesian None)
           (Sample.uniformDensity 10%float)
           (Sample.uniformVector Sample.alongX)
           (Sample.uniformVector Sample.still) 0 (Sample.layout 2 2) []);
    try reflexivity.
  - left; reflexivity.
  - simpl; lia.
Defined.

(** X5: the order of the appends. The particles are pushed cell by cell in
    the order of the nested loops (x outermost), the N particles of a cell
    next to one another: the cell indices of the new particles, read in
    order, are those of the cells of the region, each repeated N times. *)
Theorem X5_append_order
    (R : Runtime) (self : FluidParticleInitializer)
    (d : ScalarFunction) (bv tv : VectorFunction)
    (randSeed : Z) (layout : GridLayout) (container : list Particle) :
  density_ self = Some d ->
  bulkVelocity_ self = Some bv ->
  thermalVelocity_ self = Some tv ->
  field_ok R self (magneticField_ self) ->
  (1 <= dimension layout <= 3)%nat ->
  exists new,
    loadParticles R self randSeed layout container
    = (Normal tt, container ++ new)
    /\ map iCell new
       = flat_map
           (fun c => repeat (map static_cast_int32 c)
                       (Z.to_nat (nbrParticlePerCell_ self)))
           (cells (dimension layout) layout).
Proof.
  intros Hd Hbv Htv Hmf Hdim.
  rewrite (loadParticles_run R self d bv tv Hd Hbv Htv Hmf) by assumption.
  eexists. split; [reflexivity|]. apply region_particles_iCell.
Qed.

Lemma X5_append_order_witness :
  exists new,
    loadParticles Sample.runtime (Sample.initializer 10%float 2 Cartesian None)
      0 (Sample.layout 2 2) []
    = (Normal tt, [] ++ new)
    /\ map iCell new
       = flat_map (fun c => repeat (map static_cast_int32 c) 2)
           (cells 2 (Sample.layout 2 2)).
Proof.
  apply (X5_append_order Sample.runtime
           (Sample.initializer 10%float 2 Cartesian None)
           (Sample.uniformDensity 10%float)
           (Sample.uniformVector Sample.alongX)
           (Sample.uniformVector Sample.still) 0 (Sample.layout 2 2) []);
    try reflexivity.
  - left; reflexivity.
  - simpl; lia.
Defined.

(** X6: every cell of the region is covered exactly once. In a load that
    runs to its end, for each cell of the region exactly N of the new
    particles carry its index (as converted to [int32]), in any
    dimension. *)
Theorem X6_each_cell_covered_once
    (R : Runtime) (self : FluidParticleInitializer)
    (d : ScalarFunction) (bv tv : VectorFunction)
    (randSeed : Z) (layout : GridLayout) (container : list Particle) :
  density_ self = Some d ->
  bulkVelocity_ self = Some bv ->
  thermalVelocity_ self = Some tv ->
  field_ok R self (magneticField_ self) ->
  (1 <= dimension layout <= 3)%nat ->
  exists new,
    loadParticles R self randSeed layout container
    = (Normal tt, container ++ new)
    /\ forall c,
         In c (cells (dimension layout) layout) ->
         count_in_cell (map static_cast_int32 c) new
         = Z.to_nat (nbrParticlePerCell_ self).
Proof.
  intros Hd Hbv Htv Hmf Hdim.
  rewrite (loadParticles_run R self d bv tv Hd Hbv Htv Hmf) by assumption.
  eexists. split; [reflexivity|]. intros c Hc.
  apply count_region_once; [apply cells_NoDup | exact Hc |].
  intros c' Hc' E.
  apply map_static_cast_int32_injective; try exact E;
    eapply cells_bounds; eassumption.
Qed.

Lemma X6_each_cell_covered_once_witness :
  exists new,
    loadParticles Sample.runtime (Sample.initializer 10%float 2 Cartesian None)
      0 (Sample.layout 2 2) []
    = (Normal tt, [] ++ new)
    /\ forall c,
         In c (cells 2 (Sample.layout 2 2)) ->
         count_in_cell (map static_cast_int32 c) new = 2%nat.
Proof.
  apply (X6_each_cell_covered_once Sample.runtime
           (Sample.initializer 10%float 2 Cartesian None)
           (Sample.uniformDensity 10%float)
           (Sample.uniformVector Sample.alongX)
           (Sample.uniformVector Sample.still) 0 (Sample.layout 2 2) []);
    try reflexivity.
  - left; reflexivity.
  - simpl; lia.
Defined.

Section Stopping.

Variable R : Runtime.
Variable self : FluidParticleInitializer.
Variables (dim : nat) (layout : GridLayout).
Variables (d : ScalarFunction) (bv tv : VectorFunction).

Abbreviation mf := (magneticField_ self).
Abbreviation body :=
  (fun c => cell_run R self dim c (center_args dim layout c)
              (field_args dim layout c) (cell_volume dim layout) d bv tv mf).

Lemma cell_run_normal c b (s : LoadState R) :
  field_outcome R self mf (field_args dim layout c) = Normal b ->
  body c s = (Normal tt, cell_step R self dim layout d bv tv mf s c).
Proof.
  intro H. unfold cell_run, cell_step, cell_particles, basis_at.
  rewrite H. reflexivity.
Qed.

Lemma cell_run_stops c (s : LoadState R) :
  (forall b, field_outcome R self mf (field_args dim layout c) <> Normal b) ->
  particles (snd (body c s)) = particles s
  /\ fst (body c s)
     = match field_outcome R self mf (field_args dim layout c) with
       | Normal _ => Normal tt
       | Thrown e => Thrown e
       | NullCall p => NullCall p
       end.
Proof.
  intro H. unfold cell_run.
  destruct (field_outcome R self mf (field_args dim layout c)) as [b|e|p];
    [now destruct (H b) | now split | now split].
Qed.

Lemma for_each_stops pre c post (s : LoadState R) :
  (forall c', In c' pre ->
     exists b, field_outcome R self mf (field_args dim layout c') = Normal b) ->
  (forall b, field_outcome R self mf (field_args dim layout c) <> Normal b) ->
  let r := for_each (pre ++ c :: post) body s in
  particles (snd r)
  = particles s ++ region_particles R self dim layout d bv tv mf pre (gen s)
  /\ fst r
     = match field_outcome R self mf (field_args dim layout c) with
       | Normal _ => Normal tt
       | Thrown e => Thrown e
       | NullCall p => NullCall p
       end.
Proof.
  intros Hpre Hc. cbv zeta.
  assert (E : for_each (pre ++ c :: post) body s
              = for_each (c :: post) body
                  (fold_left (cell_step R self dim layout d bv tv mf) pre s)).
  { rewrite for_each_app. unfold bind at 1.
    rewrite (for_each_steps_in R pre _ (cell_step R self dim layout d bv tv mf));
      [reflexivity|].
    intros c' s' Hin. destruct (Hpre c' Hin) as [b Hb].
    apply (cell_run_normal c' b s' Hb). }
  rewrite E, region_run. simpl for_each. unfold bind.
  match goal with
  | |- context [cell_run R self dim c ?a ?b ?v d bv tv mf ?s'] =>
      destruct (cell_run_stops c s' Hc) as [Hp Ho];
      destruct (cell_run R self dim c a b v d bv tv mf s')
        as [[[]|e|p] s''] eqn:E'; simpl in Hp, Ho
  end.
  - destruct (field_outcome R self mf (field_args dim layout c)) as [b|e|p];
      [now destruct (Hc b) | discriminate | discriminate].
  - simpl. now rewrite Hp.
  - simpl. now rewrite Hp.
Qed.

End Stopping.

Lemma field_outcome_magnetic R self f coords :
  basis_ self = Magnetic ->
  field_outcome R self (Some f) coords
  = match localMagneticBasis R (f coords) with
    | Normal b => Normal (Some b)
    | Thrown e => Thrown e
    | NullCall p => NullCall p
    end.
Proof. intro H. unfold field_outcome. now rewrite H. Qed.

(** X7: when [localMagneticBasis] leaves a cell by an exception, the load
    ends there with that exception: the particles of the cells visited
    before it stay in the container, in order, and neither that cell nor a
    later one receives a particle. *)
Theorem X7_exception_keeps_earlier_cells
    (R : Runtime) (self : FluidParticleInitializer)
    (d : ScalarFunction) (bv tv f : VectorFunction)
    (randSeed : Z) (layout : GridLayout) (container : list Particle)
    (pre post : list (list Z)) (c : list Z) (e : Error) :
  density_ self = Some d ->
  bulkVelocity_ self = Some bv ->
  thermalVelocity_ self = Some tv ->
  basis_ self = Magnetic ->
  magneticField_ self = Some f ->
  (1 <= dimension layout <= 3)%nat ->
  cells (dimension layout) layout = pre ++ c :: post ->
  (forall c', In c' pre ->
     exists b,
       localMagneticBasis R (f (field_args (dimension layout) layout c'))
       = Normal b) ->
  localMagneticBasis R (f (field_args (dimension layout) layout c))
  = Thrown e ->
  exists new,
    loadParticles R self randSeed layout container
    = (Thrown e, container ++ new)
    /\ map iCell new
       = flat_map
           (fun c' => repeat (map static_cast_int32 c')
                        (Z.to_nat (nbrParticlePerCell_ self)))
           pre.
Proof.
  intros Hd Hbv Htv HM Hf Hdim Hcells Hpre Hc.
  rewrite (loadParticles_cells R self d bv tv Hd Hbv Htv) by assumption.
  rewrite Hcells. unfold observed.
  match goal with
  | |- context [for_each _ _ ?s] =>
      destruct (for_each_stops R self (dimension layout) layout d bv tv
                  pre c post s) as [Hp Ho]
  end.
  - intros c' Hin. destruct (Hpre c' Hin) as [b Hb].
    exists (Some b). rewrite Hf, (field_outcome_magnetic _ _ _ _ HM), Hb.
    reflexivity.
  - intro b. rewrite Hf, (field_outcome_magnetic _ _ _ _ HM), Hc. discriminate.
  - cbv zeta in Hp, Ho. rewrite Hp, Ho.
    rewrite Hf, (field_outcome_magnetic _ _ _ _ HM), Hc.
    eexists. split; [reflexivity|]. apply region_particles_iCell.
Qed.

Lemma X7_exception_keeps_earlier_cells_witness :
  let f : VectorFunction :=
    fun coords =>
      if (nth 0 coords zero <? 1)%float then Sample.alongX else Sample.still in
  exists new,
    loadParticles Sample.runtime
      (Sample.initializer 10%float 2 Magnetic (Some f)) 0 (Sample.layout 1 3) []
    = (Thrown DegenerateFieldCondition, [] ++ new)
    /\ map iCell new
       = flat_map (fun c' => repeat (map static_cast_int32 c') 2) [[5]].
Proof.
  cbv zeta.
  apply (X7_exception_keeps_earlier_cells Sample.runtime
           (Sample.initializer 10%float 2 Magnetic
              (Some (fun coords =>
                       if (nth 0 coords zero <? 1)%float
                       then Sample.alongX else Sample.still)))
           (Sample.uniformDensity 10%float)
           (Sample.uniformVector Sample.alongX)
           (Sample.uniformVector Sample.still)
           (fun coords =>
              if (nth 0 coords zero <? 1)%float
              then Sample.alongX else Sample.still)
           0 (Sample.layout 1 3) [] [[5]] [[7]] [6] DegenerateFieldCondition);
    try reflexivity.
  - simpl; lia.
  - intros c' [<-|[]]. eexists. vm_compute. reflexivity.
Defined.

(** X8: the magnetic basis with a null magnetic-field pointer. Over a
    region that has a cell, the load calls the field through the null
    reference in the first cell, before any particle is pushed: it ends
    there and the container is as it was. *)
Theorem X8_null_field_called_in_first_cell
    (R : Runtime) (self : FluidParticleInitializer)
    (d : ScalarFunction) (bv tv : VectorFunction)
    (randSeed : Z) (layout : GridLayout) (container : list Particle) :
  density_ self = Some d ->
  bulkVelocity_ self = Some bv ->
  thermalVelocity_ self = Some tv ->
  basis_ self = Magnetic ->
  magneticField_ self = None ->
  (1 <= dimension layout <= 3)%nat ->
  (0 < region_size (dimension layout) layout)%nat ->
  loadParticles R self randSeed layout container
  = (NullCall MagneticField, container).
Proof.
  intros Hd Hbv Htv HM Hf Hdim Hsize.
  rewrite (loadParticles_cells R self d bv tv Hd Hbv Htv) by assumption.
  rewrite <- cells_length in Hsize.
  destruct (cells (dimension layout) layout) as [|c post] eqn:E;
    [simpl in Hsize; lia|].
  unfold observed.
  match goal with
  | |- context [for_each _ _ ?s] =>
      destruct (for_each_stops R self (dimension layout) layout d bv tv
                  [] c post s) as [Hp Ho]
  end.
  - intros c' [].
  - intro b. rewrite Hf. unfold field_outcome. rewrite HM. discriminate.
  - cbv zeta in Hp, Ho. simpl app in Hp, Ho. rewrite Hp, Ho.
    rewrite Hf. unfold field_outcome. rewrite HM. simpl.
    now rewrite app_nil_r.
Qed.

Lemma X8_null_field_called_in_first_cell_witness :
  loadParticles Sample.runtime (Sample.initializer 10%float 2 Magnetic None)
    0 (Sample.layout 2 2) []
  = (NullCall MagneticField, []).
Proof.
  apply (X8_null_field_called_in_first_cell Sample.runtime
           (Sample.initializer 10%float 2 Magnetic None)
           (Sample.uniformDensity 10%float)
           (Sample.uniformVector Sample.alongX)
           (Sample.uniformVector Sample.still) 0 (Sample.layout 2 2) []);
    try reflexivity.
  - simpl; lia.
  - vm_compute; lia.
Defined.

Lemma evaluations_app p tr1 tr2 :
  evaluations p (tr1 ++ tr2) = evaluations p tr1 ++ evaluations p tr2.
Proof.
  induction tr1 as [|[q n|q coords] tr1 IH]; simpl; [reflexivity | exact IH |].
  destruct (same_profile p q); simpl; now rewrite IH.
Qed.

Lemma evaluations_region_moment self dim layout mf cs p :
  p <> MagneticField ->
  evaluations p (region_events self dim layout mf cs)
  = map (center_args dim layout) cs.
Proof.
  intro Hp. unfold region_events. induction cs as [|c cs IH]; [reflexivity|].
  cbn [flat_map]. rewrite !evaluations_app, IH. unfold field_events.
  destruct p; try (now destruct Hp);
    destruct (is_magnetic (basis_ self)); destruct mf; reflexivity.
Qed.

Lemma evaluations_region_field self dim layout mf cs :
  evaluations MagneticField (region_events self dim layout mf cs)
  = if is_magnetic (basis_ self) && negb (is_null mf)
    then map (field_args dim layout) cs else [].
Proof.
  unfold region_events. induction cs as [|c cs IH].
  - now destruct (is_magnetic (basis_ self) && negb (is_null mf)).
  - cbn [flat_map]. rewrite !evaluations_app, IH. unfold field_events.
    destruct (is_magnetic (basis_ self)); destruct mf; reflexivity.
Qed.

Lemma evaluations_loaded_moment R self d bv tv dim randSeed layout container p :
  p <> MagneticField ->
  evaluations p (trace (loaded R self d bv tv dim randSeed layout container))
  = map (center_args dim layout) (cells dim layout).
Proof.
  intro Hp. unfold loaded. cbv zeta. cbn [trace entered].
  rewrite evaluations_app, evaluations_region_moment by exact Hp. reflexivity.
Qed.

Lemma evaluations_loaded_field R self d bv tv dim randSeed layout container :
  evaluations MagneticField
    (trace (loaded R self d bv tv dim randSeed layout container))
  = if is_magnetic (basis_ self) && negb (is_null (magneticField_ self))
    then map (field_args dim layout) (cells dim layout) else [].
Proof.
  unfold loaded. cbv zeta. cbn [trace entered].
  rewrite evaluations_app, evaluations_region_field. reflexivity.
Qed.

Lemma center_args_length dim layout c : length (center_args dim layout c) = dim.
Proof. unfold center_args. now rewrite length_map, length_seq. Qed.

(** X9: the moment profiles are evaluated once per cell, not once per
    particle. In a load that runs to its end, each of density, bulk
    velocity and thermal velocity is called exactly once for every cell of
    the region, in loop order, whatever the count of particles per cell, and
    with the first [dimension] coordinates of the center of that cell. *)
Theorem X9_moment_profiles_once_per_cell
    (R : Runtime) (self : FluidParticleInitializer)
    (d : ScalarFunction) (bv tv : VectorFunction)
    (randSeed : Z) (layout : GridLayout) (container : list Particle)
    (p : Profile) :
  density_ self = Some d ->
  bulkVelocity_ self = Some bv ->
  thermalVelocity_ self = Some tv ->
  field_ok R self (magneticField_ self) ->
  p <> MagneticField ->
  evaluations p (trace (snd (loadParticles1D_ R self randSeed layout container)))
  = map (fun c => [nth 0 (cellCenteredCoordinates layout c) zero])
        (cells 1 layout)
  /\ evaluations p
       (trace (snd (loadParticles2D_ R self randSeed layout container)))
     = map (fun c => [nth 0 (cellCenteredCoordinates layout c) zero;
                      nth 1 (cellCenteredCoordinates layout c) zero])
           (cells 2 layout)
  /\ evaluations p
       (trace (snd (loadParticles3D_ R self randSeed layout container)))
     = map (fun c => [nth 0 (cellCenteredCoordinates layout c) zero;
                      nth 1 (cellCenteredCoordinates layout c) zero;
                      nth 2 (cellCenteredCoordinates layout c) zero])
           (cells 3 layout).
Proof.
  intros Hd Hbv Htv Hmf Hp.
  rewrite (loadParticles1D_run R self d bv tv Hd Hbv Htv Hmf).
  rewrite (loadParticles2D_run R self d bv tv Hd Hbv Htv Hmf).
  rewrite (loadParticles3D_run R self d bv tv Hd Hbv Htv Hmf).
  cbn [snd]. rewrite !evaluations_loaded_moment by exact Hp.
  repeat split; reflexivity.
Qed.

Lemma X9_moment_profiles_once_per_cell_witness :
  evaluations Density
    (trace (snd (loadParticles2D_ Sample.runtime
                   (Sample.initializer 10%float 5 Cartesian None) 0
                   (Sample.layout 2 2) [])))
  = map (fun c => [nth 0 (cellCenteredCoordinates (Sample.layout 2 2) c) zero;
                   nth 1 (cellCenteredCoordinates (Sample.layout 2 2) c) zero])
        (cells 2 (Sample.layout 2 2)).
Proof.
  apply (X9_moment_profiles_once_per_cell Sample.runtime
           (Sample.initializer 10%float 5 Cartesian None)
           (Sample.uniformDensity 10%float)
           (Sample.uniformVector Sample.alongX)
           (Sample.uniformVector Sample.still) 0 (Sample.layout 2 2) []
           Density);
    try reflexivity.
  - left; reflexivity.
  - discriminate.
Defined.

Section CartesianFrame.

Variable R : Runtime.
Variable self : FluidParticleInitializer.
Variable mf' : option VectorFunction.
Hypothesis HC : basis_ self = Cartesian.

Lemma batch_with_field dim V Vth b b' w cell n g :
  batch R (with_field self mf') dim V Vth b w cell n g
  = batch R self dim V Vth b' w cell n g.
Proof.
  revert g; induction n as [|n IH]; intro g; simpl; [reflexivity|].
  rewrite IH. f_equal. unfold new_particle, rotate. simpl.
  now rewrite HC.
Qed.

Lemma region_particles_with_field dim layout d bv tv mf cs g :
  region_particles R (with_field self mf') dim layout d bv tv mf' cs g
  = region_particles R self dim layout d bv tv mf cs g.
Proof.
  revert g; induction cs as [|c cs IH]; intro g; simpl; [reflexivity|].
  rewrite IH. f_equal. unfold cell_particles. cbv zeta.
  apply batch_with_field.
Qed.

End CartesianFrame.

(** X11: with the magnetic basis the 1D and 3D loaders evaluate the magnetic
    field once per cell of the region, in loop order, with the same
    coordinates of the cell center as the moment profiles. *)
Theorem X11_field_once_per_cell
    (R : Runtime) (self : FluidParticleInitializer)
    (d : ScalarFunction) (bv tv f : VectorFunction)
    (randSeed : Z) (layout : GridLayout) (container : list Particle) :
  density_ self = Some d ->
  bulkVelocity_ self = Some bv ->
  thermalVelocity_ self = Some tv ->
  basis_ self = Magnetic ->
  magneticField_ self = Some f ->
  (forall coords, exists b, localMagneticBasis R (f coords) = Normal b) ->
  evaluations MagneticField
    (trace (snd (loadParticles1D_ R self randSeed layout container)))
  = evaluations Density
      (trace (snd (loadParticles1D_ R self randSeed layout container)))
  /\ evaluations MagneticField
       (trace (snd (loadParticles1D_ R self randSeed layout container)))
     = map (fun c => [nth 0 (cellCenteredCoordinates layout c) zero])
           (cells 1 layout)
  /\ evaluations MagneticField
       (trace (snd (loadParticles3D_ R self randSeed layout container)))
     = evaluations Density
         (trace (snd (loadParticles3D_ R self randSeed layout container)))
  /\ evaluations MagneticField
       (trace (snd (loadParticles3D_ R self randSeed layout container)))
     = map (fun c => [nth 0 (cellCenteredCoordinates layout c) zero;
                      nth 1 (cellCenteredCoordinates layout c) zero;
                      nth 2 (cellCenteredCoordinates layout c) zero])
           (cells 3 layout).
Proof.
  intros Hd Hbv Htv HM Hf Hb.
  assert (Hmf : field_ok R self (magneticField_ self)).
  { right. exists f. now split. }
  rewrite (loadParticles1D_run R self d bv tv Hd Hbv Htv Hmf).
  rewrite (loadParticles3D_run R self d bv tv Hd Hbv Htv Hmf).
  cbn [snd]. rewrite !evaluations_loaded_field.
  rewrite !evaluations_loaded_moment by discriminate.
  rewrite HM, Hf. simpl. repeat split; reflexivity.
Qed.

Lemma X11_field_once_per_cell_witness :
  evaluations MagneticField
    (trace (snd (loadParticles3D_ Sample.runtime
                   (Sample.initializer 10%float 1 Magnetic
                      (Some (Sample.uniformVector Sample.alongX)))
                   0 (Sample.layout 3 2) [])))
  = evaluations Density
      (trace (snd (loadParticles3D_ Sample.runtime
                     (Sample.initializer 10%float 1 Magnetic
                        (Some (Sample.uniformVector Sample.alongX)))
                     0 (Sample.layout 3 2) []))).
Proof.
  apply (X11_field_once_per_cell Sample.runtime
           (Sample.initializer 10%float 1 Magnetic
              (Some (Sample.uniformVector Sample.alongX)))
           (Sample.uniformDensity 10%float)
           (Sample.uniformVector Sample.alongX)
           (Sample.uniformVector Sample.still)
           (Sample.uniformVector Sample.alongX)
           0 (Sample.layout 3 2) []);
    try reflexivity.
  intro coords. eexists. vm_compute. reflexivity.
Defined.

Section Positions.

Variable R : Runtime.
Variable self : FluidParticleInitializer.
Variables (dim : nat) (layout : GridLayout).
Variables (d : ScalarFunction) (bv tv : VectorFunction).
Variable mf : option VectorFunction.

Abbreviation N := (Z.to_nat (nbrParticlePerCell_ self)).

Lemma batch_nth V Vth basis w cell n g i p :
  nth_error (batch R self dim V Vth basis w cell n g) i = Some p ->
  p = new_particle R self dim V Vth basis w cell (advance_by (i * dim) g).
Proof.
  revert g i; induction n as [|n IH]; intros g i H.
  - destruct i; discriminate.
  - destruct i as [|i]; simpl in H.
    + now injection H as <-.
    + apply IH in H. rewrite H. simpl Nat.mul.
      now rewrite advance_by_add.
Qed.

Lemma region_nth cs g i p :
  nth_error (region_particles R self dim layout d bv tv mf cs g) i = Some p ->
  exists c,
    In c cs
    /\ p = new_particle R self dim
             (bv (center_args dim layout c)) (tv (center_args dim layout c))
             (basis_at R self mf (field_args dim layout c))
             (cell_weight self (d (center_args dim layout c))
                (cell_volume dim layout))
             c (advance_by (i * dim) g).
Proof.
  revert g i; induction cs as [|c cs IH]; intros g i H.
  - destruct i; discriminate.
  - cbn [region_particles] in H. destruct (lt_dec i N) as [Hi|Hi].
    + rewrite nth_error_app1 in H;
        [| rewrite cell_particles_length; exact Hi].
      exists c. split; [now left|]. unfold cell_particles in H.
      now apply batch_nth in H.
    + rewrite nth_error_app2 in H;
        [| rewrite cell_particles_length; lia].
      rewrite cell_particles_length in H. apply IH in H.
      destruct H as [c' [Hc' ->]]. exists c'. split; [now right|].
      replace (i * dim)%nat with (N * dim + (i - N) * dim)%nat by nia.
      now rewrite advance_by_add.
Qed.

End Positions.

(** X12: the sub-cell offsets are the stream of the generator. Read in the
    order of the appends, the offsets of the new particles are the
    successive uniform draws of the generator the loader constructed, with
    none skipped or repeated: [cells * N * dimension] draws in all. *)
Theorem X12_offsets_are_the_generator_stream
    (R : Runtime) (self : FluidParticleInitializer)
    (d : ScalarFunction) (bv tv : VectorFunction)
    (randSeed : Z) (layout : GridLayout) (container : list Particle) :
  density_ self = Some d ->
  bulkVelocity_ self = Some bv ->
  thermalVelocity_ self = Some tv ->
  field_ok R self (magneticField_ self) ->
  (1 <= dimension layout <= 3)%nat ->
  exists new,
    loadParticles R self randSeed layout container
    = (Normal tt, container ++ new)
    /\ flat_map delta new
       = offsets
           (region_size (dimension layout) layout
            * (Z.to_nat (nbrParticlePerCell_ self) * dimension layout))
           (mt19937_64 R (generator_seed (dimension layout) randSeed)).
Proof.
  intros Hd Hbv Htv Hmf Hdim.
  rewrite (loadParticles_run R self d bv tv Hd Hbv Htv Hmf) by assumption.
  eexists. split; [reflexivity|].
  now rewrite region_particles_delta, cells_length.
Qed.

Lemma X12_offsets_are_the_generator_stream_witness :
  exists new,
    loadParticles Sample.runtime (Sample.initializer 10%float 2 Cartesian None)
      3 (Sample.layout 2 2) []
    = (Normal tt, [] ++ new)
    /\ flat_map delta new
       = offsets (region_size 2 (Sample.layout 2 2) * (2 * 2))
           (mt19937_64 Sample.runtime 3).
Proof.
  apply (X12_offsets_are_the_generator_stream Sample.runtime
           (Sample.initializer 10%float 2 Cartesian None)
           (Sample.uniformDensity 10%float)
           (Sample.uniformVector Sample.alongX)
           (Sample.uniformVector Sample.still) 3 (Sample.layout 2 2) []);
    try reflexivity.
  - left; reflexivity.
  - simpl; lia.
Defined.

(** X13: the velocity sampler and the offsets see the same generator state.
    With the Cartesian basis, the i-th particle a load pushes has the
    velocity that [maxwellianVelocity] returns for the moments of its cell
    and the generator as it stands after [i * dimension] uniform draws, and
    its offsets are the next [dimension] draws from that same state. *)
Theorem X13_sampler_and_offsets_share_the_state
    (R : Runtime) (self : FluidParticleInitializer)
    (d : ScalarFunction) (bv tv : VectorFunction)
    (randSeed : Z) (layout : GridLayout) (container : list Particle) :
  density_ self = Some d ->
  bulkVelocity_ self = Some bv ->
  thermalVelocity_ self = Some tv ->
  basis_ self = Cartesian ->
  (1 <= dimension layout <= 3)%nat ->
  exists new,
    loadParticles R self randSeed layout container
    = (Normal tt, container ++ new)
    /\ forall i p,
         nth_error new i = Some p ->
         let g :=
           advance_by (i * dimension layout)
             (mt19937_64 R (generator_seed (dimension layout) randSeed)) in
         delta p = offsets (dimension layout) g
         /\ exists c,
              In c (cells (dimension layout) layout)
              /\ iCell p = map static_cast_int32 c
              /\ v p
                 = maxwellianVelocity R
                     (bv (center_args (dimension layout) layout c))
                     (tv (center_args (dimension layout) layout c)) g.
Proof.
  intros Hd Hbv Htv HC Hdim.
  assert (Hmf : field_ok R self (magneticField_ self)) by (left; exact HC).
  rewrite (loadParticles_run R self d bv tv Hd Hbv Htv Hmf) by assumption.
  eexists. split; [reflexivity|]. intros i p H.
  apply region_nth in H. destruct H as [c [Hc ->]]. cbv zeta.
  split; [reflexivity|]. exists c. split; [exact Hc|].
  split; [reflexivity|]. simpl. unfold rotate. now rewrite HC.
Qed.

Lemma X13_sampler_and_offsets_share_the_state_witness :
  exists new,
    loadParticles Sample.runtime (Sample.initializer 10%float 2 Cartesian None)
      3 (Sample.layout 2 2) []
    = (Normal tt, [] ++ new)
    /\ forall i p,
         nth_error new i = Some p ->
         let g := advance_by (i * 2) (mt19937_64 Sample.runtime 3) in
         delta p = offsets 2 g
         /\ exists c,
              In c (cells 2 (Sample.layout 2 2))
              /\ iCell p = map static_cast_int32 c
              /\ v p
                 = maxwellianVelocity Sample.runtime
                     (Sample.uniformVector Sample.alongX
                        (center_args 2 (Sample.layout 2 2) c))
                     (Sample.uniformVector Sample.still
                        (center_args 2 (Sample.layout 2 2) c)) g.
Proof.
  apply (X13_sampler_and_offsets_share_the_state Sample.runtime
           (Sample.initializer 10%float 2 Cartesian None)
           (Sample.uniformDensity 10%float)
           (Sample.uniformVector Sample.alongX)
           (Sample.uniformVector Sample.still) 3 (Sample.layout 2 2) []);
    try reflexivity.
  simpl; lia.
Defined.

(** X14: what a load appends does not depend on what the container holds,
    so loading the same region again appends the same particles a second
    time, offsets and velocities included; for a 1D layout this holds
    whatever the random device delivers at each load. *)
Theorem X14_reload_appends_the_same_particles
    (R : Runtime) (self : FluidParticleInitializer)
    (d : ScalarFunction) (bv tv : VectorFunction)
    (randSeed : Z) (layout : GridLayout) :
  density_ self = Some d ->
  bulkVelocity_ self = Some bv ->
  thermalVelocity_ self = Some tv ->
  field_ok R self (magneticField_ self) ->
  (1 <= dimension layout <= 3)%nat ->
  exists new,
    (forall container,
       loadParticles R self randSeed layout container
       = (Normal tt, container ++ new))
    /\ (forall container,
          loadParticles R self randSeed layout
            (snd (loadParticles R self randSeed layout container))
          = (Normal tt, container ++ new ++ new))
    /\ (dimension layout = 1%nat ->
        forall randSeed1 randSeed2 container,
          loadParticles R self randSeed2 layout
            (snd (loadParticles R self randSeed1 layout container))
          = (Normal tt, container ++ new ++ new)).
Proof.
  intros Hd Hbv Htv Hmf Hdim.
  eexists. split; [|split].
  - intro container.
    now rewrite (loadParticles_run R self d bv tv Hd Hbv Htv Hmf).
  - intro container.
    rewrite !(loadParticles_run R self d bv tv Hd Hbv Htv Hmf) by assumption.
    cbn [snd]. now rewrite <- app_assoc.
  - intros H1 randSeed1 randSeed2 container.
    rewrite !(loadParticles_run R self d bv tv Hd Hbv Htv Hmf) by assumption.
    cbn [snd]. rewrite H1. cbn [generator_seed]. now rewrite <- app_assoc.
Qed.

Lemma X14_reload_appends_the_same_particles_witness :
  exists new,
    (forall container,
       loadParticles Sample.runtime
         (Sample.initializer 10%float 2 Cartesian None) 3 (Sample.layout 1 2)
         container
       = (Normal tt, container ++ new))
    /\ (forall container,
          loadParticles Sample.runtime
            (Sample.initializer 10%float 2 Cartesian None) 3 (Sample.layout 1 2)
            (snd (loadParticles Sample.runtime
                    (Sample.initializer 10%float 2 Cartesian None) 3
                    (Sample.layout 1 2) container))
          = (Normal tt, container ++ new ++ new))
    /\ (dimension (Sample.layout 1 2) = 1%nat ->
        forall randSeed1 randSeed2 container,
          loadParticles Sample.runtime
            (Sample.initializer 10%float 2 Cartesian None) randSeed2
            (Sample.layout 1 2)
            (snd (loadParticles Sample.runtime
                    (Sample.initializer 10%float 2 Cartesian None) randSeed1
                    (Sample.layout 1 2) container))
          = (Normal tt, container ++ new ++ new)).
Proof.
  apply (X14_reload_appends_the_same_particles Sample.runtime
           (Sample.initializer 10%float 2 Cartesian None)
           (Sample.uniformDensity 10%float)
           (Sample.uniformVector Sample.alongX)
           (Sample.uniformVector Sample.still) 3 (Sample.layout 1 2));
    try reflexivity.
  - left; reflexivity.
  - simpl; lia.
Defined.

(** * Rounding of the weight *)

Lemma recorded_shr_1 num den r :
  0 < den -> recorded num den r -> recorded num (2 * den) (shr_1 r).
Proof.
  intros Hden [Hm H]. destruct r as [m b s]. simpl in Hm.
  unfold recorded, located in *.
  destruct m as [|p|p]; [| |lia].
  - destruct b, s; cbv [shr_1 loc_of_shr_record shr_m orb] in *; lia.
  - destruct p as [p|p|]; destruct b, s;
      cbv [shr_1 loc_of_shr_record shr_m orb] in *;
      try rewrite Pos2Z.inj_xI in *; try rewrite Pos2Z.inj_xO in *; lia.
Qed.

Lemma pow2_xO p : 2 ^ Z.pos p~0 = 2 ^ Z.pos p * 2 ^ Z.pos p.
Proof.
  replace (Z.pos p~0) with (Z.pos p + Z.pos p) by lia.
  apply Z.pow_add_r; lia.
Qed.

Lemma pow2_xI p : 2 ^ Z.pos p~1 = 2 * (2 ^ Z.pos p * 2 ^ Z.pos p).
Proof.
  replace (Z.pos p~1) with (1 + (Z.pos p + Z.pos p)) by lia.
  rewrite Z.pow_add_r, (Z.pow_add_r 2 (Z.pos p)) by lia. now rewrite Z.pow_1_r.
Qed.

Lemma pow2_pos k : 0 <= k -> 0 < 2 ^ k.
Proof. intro. apply Z.pow_pos_nonneg; lia. Qed.

Lemma recorded_iter_pos num den r p :
  0 < den -> recorded num den r ->
  recorded num (2 ^ Zpos p * den) (iter_pos shr_1 p r).
Proof.
  revert den r. induction p as [p IH|p IH|]; intros den r Hden H; simpl iter_pos.
  - pose proof (pow2_pos (Z.pos p) ltac:(lia)) as Hp.
    apply recorded_shr_1 in H; [|exact Hden].
    apply IH in H; [|lia]. apply IH in H; [|nia].
    rewrite pow2_xI.
    replace (2 * (2 ^ Z.pos p * 2 ^ Z.pos p) * den)
      with (2 ^ Z.pos p * (2 ^ Z.pos p * (2 * den))) by ring.
    exact H.
  - pose proof (pow2_pos (Z.pos p) ltac:(lia)) as Hp.
    apply IH in H; [|lia]. apply IH in H; [|nia].
    rewrite pow2_xO.
    replace (2 ^ Z.pos p * 2 ^ Z.pos p * den)
      with (2 ^ Z.pos p * (2 ^ Z.pos p * den)) by ring.
    exact H.
  - apply recorded_shr_1 in H; [|exact Hden]. exact H.
Qed.

Lemma recorded_shr num den r e n :
  0 < den -> recorded num den r ->
  exists k, 0 <= k /\ snd (shr r e n) = e + k
            /\ recorded num (2 ^ k * den) (fst (shr r e n)).
Proof.
  intros Hden H. destruct n as [|p|p]; simpl.
  - exists 0. rewrite Z.add_0_r, Z.mul_1_l. auto with zarith.
  - exists (Z.pos p). split; [lia|]. split; [reflexivity|].
    now apply recorded_iter_pos.
  - exists 0. rewrite Z.add_0_r, Z.mul_1_l. auto with zarith.
Qed.

Lemma recorded_of_loc num den m l :
  0 <= m -> located num den m l -> recorded num den (shr_record_of_loc m l).
Proof.
  intros Hm H. unfold recorded.
  destruct l as [|[| |]]; simpl; auto.
Qed.

Lemma round_nearest_even_close num den m l :
  0 < den -> 0 <= m -> located num den m l ->
  0 <= round_nearest_even m l
  /\ - den <= 2 * (round_nearest_even m l * den - num) <= den.
Proof.
  intros Hden Hm [Hb Hl]. destruct l as [|[| |]]; cbv [round_nearest_even].
  - lia.
  - destruct (Z.even m); lia.
  - lia.
  - lia.
Qed.

Section Round.
Variables prec emax : Z.

Lemma binary_round_aux_close sx mx ex lx num den :
  0 < den -> 0 <= mx -> located num den mx lx ->
  match binary_round_aux prec emax sx mx ex lx with
  | S754_finite s m e =>
      s = sx /\ exists k, 0 <= k /\ e = ex + k
        /\ - (3 * (2 ^ k * den)) <= 2 * (Zpos m * (2 ^ k * den) - num)
           <= 3 * (2 ^ k * den)
  | _ => True
  end.
Proof.
  intros Hden Hm Hl. unfold binary_round_aux, shr_fexp.
  destruct (recorded_shr num den (shr_record_of_loc mx lx) ex
              (fexp prec emax (Zdigits2 mx + ex) - ex) Hden
              (recorded_of_loc _ _ _ _ Hm Hl)) as [k1 [Hk1 [He1 [Hm1 Hr1]]]].
  destruct (shr (shr_record_of_loc mx lx) ex
              (fexp prec emax (Zdigits2 mx + ex) - ex)) as [mrs1 e1].
  simpl in He1, Hm1, Hr1.
  pose proof (pow2_pos k1 Hk1) as Hp1.
  destruct (round_nearest_even_close num (2 ^ k1 * den) _ _ ltac:(nia) Hm1 Hr1)
    as [Hm2 Hc].
  set (m2 := round_nearest_even (shr_m mrs1) (loc_of_shr_record mrs1)) in *.
  assert (Hl2 : located m2 1 m2 loc_Exact) by (unfold located; lia).
  destruct (recorded_shr m2 1 (shr_record_of_loc m2 loc_Exact) e1
              (fexp prec emax (Zdigits2 m2 + e1) - e1) ltac:(lia)
              (recorded_of_loc _ _ _ _ Hm2 Hl2)) as [k2 [Hk2 [He2 [Hm3 [Hb3 _]]]]].
  destruct (shr (shr_record_of_loc m2 loc_Exact) e1
              (fexp prec emax (Zdigits2 m2 + e1) - e1)) as [mrs2 e2].
  simpl in He2, Hm3, Hb3.
  pose proof (pow2_pos k2 Hk2) as Hp2.
  destruct (shr_m mrs2) as [|m|m] eqn:Em; [exact I| |exact I].
  destruct (e2 <=? emax - prec); [|exact I].
  split; [reflexivity|]. exists (k1 + k2). split; [lia|]. split; [lia|].
  rewrite Z.pow_add_r by lia.
  rewrite Z.mul_1_r in Hb3.
  set (P1 := 2 ^ k1) in *. set (P2 := 2 ^ k2) in *.
  assert (HD : 0 < P1 * den) by nia.
  set (D := P1 * den) in *.
  replace (P1 * P2 * den) with (P2 * D) by (unfold D; ring).
  nia.
Qed.

End Round.

Lemma new_location_located nb m :
  0 < nb -> 0 <= m ->
  located m nb (m / nb) (new_location nb (m mod nb)).
Proof.
  intros Hnb Hm.
  pose proof (Z.div_mod m nb ltac:(lia)) as E.
  pose proof (Z.mod_pos_bound m nb Hnb) as Hr.
  set (q := m / nb) in *. set (r := m mod nb) in *.
  unfold located. split; [nia|].
  unfold new_location. destruct (Z.even nb) eqn:Ev.
  - unfold new_location_even. destruct (Z.eqb_spec r 0) as [E0|E0]; [nia|].
    destruct (Z.compare_spec (2 * r) nb); nia.
  - unfold new_location_odd. destruct (Z.eqb_spec r 0) as [E0|E0]; [nia|].
    assert (Hodd : Z.odd nb = true) by (rewrite <- Z.negb_even, Ev; reflexivity).
    apply Z.odd_spec in Hodd. destruct Hodd as [h Hh].
    destruct (Z.compare_spec (2 * r + 1) nb); nia.
Qed.

Section Division.
Variables prec emax : Z.

Lemma SFdiv_close sx mx ex sy my ey :
  match SFdiv prec emax (S754_finite sx mx ex) (S754_finite sy my ey) with
  | S754_finite s m e =>
      s = xorb sx sy
      /\ exists e' k,
           e' <= ex - ey /\ 0 <= k /\ e = e' + k
           /\ - (3 * (2 ^ k * Zpos my))
              <= 2 * (Zpos m * (2 ^ k * Zpos my) - Zpos mx * 2 ^ (ex - ey - e'))
              <= 3 * (2 ^ k * Zpos my)
  | _ => True
  end.
Proof.
  unfold SFdiv, SFdiv_core_binary.
  set (e' := Z.min (fexp prec emax (Zdigits2 (Z.pos mx) + ex - (Zdigits2 (Z.pos my) + ey)))
                   (ex - ey)).
  assert (He' : e' <= ex - ey) by (unfold e'; lia).
  set (s := ex - ey - e').
  assert (Hs : 0 <= s) by (unfold s; lia).
  set (m' := match s with
             | 0 => Z.pos mx
             | Z.pos _ => Z.shiftl (Z.pos mx) s
             | Z.neg _ => 0
             end).
  assert (Em : m' = Zpos mx * 2 ^ s).
  { unfold m'. destruct s as [|p|p]; [lia | | lia].
    now rewrite Z.shiftl_mul_pow2 by lia. }
  assert (Hm' : 0 <= m') by (rewrite Em; pose proof (pow2_pos s Hs); nia).
  pose proof (new_location_located (Zpos my) m' ltac:(lia) Hm') as Hl.
  unfold Z.div, Z.modulo in Hl.
  destruct (Z.div_eucl m' (Z.pos my)) as [q r].
  assert (Hq : 0 <= q) by (destruct Hl as [Hb _]; nia).
  pose proof (binary_round_aux_close prec emax (xorb sx sy) q e'
                (new_location (Z.pos my) r) m' (Zpos my) ltac:(lia) Hq Hl) as H.
  destruct (binary_round_aux prec emax (xorb sx sy) q e'
              (new_location (Z.pos my) r)) as [| | |s0 m e]; try exact I.
  destruct H as [-> [k [Hk [-> Hb]]]]. split; [reflexivity|].
  exists e', k. fold s. rewrite <- Em. auto.
Qed.

End Division.

Lemma digits2_pos_lt p : Zpos p < 2 ^ Zpos (digits2_pos p).
Proof.
  induction p as [p IH|p IH|]; simpl digits2_pos.
  - rewrite Pos2Z.inj_succ, Z.pow_succ_r by lia. lia.
  - rewrite Pos2Z.inj_succ, Z.pow_succ_r by lia. lia.
  - reflexivity.
Qed.

Lemma digits2_pos_ge p : 2 ^ (Zpos (digits2_pos p) - 1) <= Zpos p.
Proof.
  induction p as [p IH|p IH|]; simpl digits2_pos.
  - rewrite Pos2Z.inj_succ.
    replace (Z.succ (Z.pos (digits2_pos p)) - 1)
      with (Z.succ (Z.pos (digits2_pos p) - 1)) by lia.
    rewrite Z.pow_succ_r by lia. lia.
  - rewrite Pos2Z.inj_succ.
    replace (Z.succ (Z.pos (digits2_pos p)) - 1)
      with (Z.succ (Z.pos (digits2_pos p) - 1)) by lia.
    rewrite Z.pow_succ_r by lia. lia.
  - reflexivity.
Qed.

Lemma digits2_pos_bound p n :
  0 <= n -> Zpos p < 2 ^ n -> Zpos (digits2_pos p) <= n.
Proof.
  intros Hn Hp. destruct (Z_le_gt_dec (Zpos (digits2_pos p)) n) as [H|H]; [exact H|].
  pose proof (digits2_pos_ge p) as Hge.
  assert (2 ^ n <= 2 ^ (Zpos (digits2_pos p) - 1)) by (apply Z.pow_le_mono_r; lia).
  lia.
Qed.

Lemma iter_xO_digits p k :
  digits2_pos (Pos.iter xO p k) = (digits2_pos p + k)%positive.
Proof.
  induction k as [|k IH] using Pos.peano_ind.
  - simpl. lia.
  - rewrite Pos.iter_succ. simpl. rewrite IH. lia.
Qed.

Lemma iter_xO_value p k : Zpos (Pos.iter xO p k) = Zpos p * 2 ^ Zpos k.
Proof.
  induction k as [|k IH] using Pos.peano_ind.
  - simpl. lia.
  - rewrite Pos.iter_succ, Pos2Z.inj_succ, Z.pow_succ_r by lia.
    replace (Z.pos (Pos.iter xO p k)~0) with (2 * Z.pos (Pos.iter xO p k)) by lia.
    rewrite IH. ring.
Qed.

Lemma binary_round_aux_exact prec emax s m e :
  fexp prec emax (Zpos (digits2_pos m) + e) = e ->
  e <= emax - prec ->
  binary_round_aux prec emax s (Zpos m) e loc_Exact = S754_finite s m e.
Proof.
  intros Hf He. unfold binary_round_aux, shr_fexp. simpl Zdigits2.
  rewrite Hf, Z.sub_diag.
  cbn [shr shr_record_of_loc shr_m loc_of_shr_record round_nearest_even Zdigits2].
  rewrite Hf, Z.sub_diag.
  cbn [shr shr_record_of_loc shr_m loc_of_shr_record round_nearest_even Zdigits2].
  destruct (Z.leb_spec e (emax - prec)); [reflexivity | lia].
Qed.

(** The conversion of a count below 2^53 to double is exact. *)
Lemma binary_normalize_exact p :
  Zpos p < 2 ^ 53 ->
  exists m e,
    binary_normalize prec emax (Zpos p) 0 false = S754_finite false m e
    /\ e <= 0 /\ Zpos m = Zpos p * 2 ^ (- e).
Proof.
  intro Hp. unfold binary_normalize, binary_round, shl_align.
  pose proof (digits2_pos_bound p 53 ltac:(lia) Hp) as Hd.
  assert (Hd1 : 1 <= Zpos (digits2_pos p)) by lia.
  assert (Hf : fexp prec emax (Z.pos (digits2_pos p) + 0) = Zpos (digits2_pos p) - 53).
  { unfold fexp, SpecFloat.emin, prec, emax. lia. }
  rewrite Hf.
  destruct (Z.pos (digits2_pos p) - 53 - 0) as [|k|k] eqn:Ek.
  - exists p, 0. split; [|split; [lia | simpl; lia]].
    apply binary_round_aux_exact; [|unfold prec, emax; lia].
    unfold fexp, SpecFloat.emin, prec, emax. lia.
  - lia.
  - exists (Pos.iter xO p k), (Zpos (digits2_pos p) - 53).
    split; [|split; [lia|]].
    + apply binary_round_aux_exact; [|unfold prec, emax; lia].
      rewrite iter_xO_digits. unfold fexp, SpecFloat.emin, prec, emax. lia.
    + rewrite iter_xO_value. f_equal. f_equal. lia.
Qed.

Lemma of_uint63_exact n :
  0 < n < 2 ^ 53 ->
  exists m e,
    Prim2SF (of_uint63 (of_Z n)) = S754_finite false m e
    /\ e <= 0 /\ Zpos m = n * 2 ^ (- e).
Proof.
  intro Hn. rewrite of_uint63_spec, Uint63.of_Z_spec.
  rewrite Z.mod_small by (unfold wB; simpl; lia).
  destruct n as [|p|p]; try lia.
  apply binary_normalize_exact. lia.
Qed.

Lemma two_power_pos e : (0 < (2 # 1) ^ e)%Q.
Proof. apply Qpower_0_lt. reflexivity. Qed.

Lemma two_power_add a b : ((2 # 1) ^ (a + b) == (2 # 1) ^ a * (2 # 1) ^ b)%Q.
Proof. apply Qpower_plus. discriminate. Qed.

Lemma two_power_inject k : 0 <= k -> ((2 # 1) ^ k == inject_Z (2 ^ k))%Q.
Proof. intro H. symmetry. apply (Zpower_Qpower 2 k H). Qed.

Lemma Qabs_sign (s : bool) (x : Q) :
  (Qabs ((if s then - (1) else 1) * x) == Qabs x)%Q.
Proof.
  destruct s.
  - setoid_replace (- (1) * x)%Q with (- x)%Q by ring. apply Qabs_opp.
  - now setoid_replace (1 * x)%Q with x by ring.
Qed.

Lemma inject_Z_close u v :
  - (3 * v) <= 2 * u <= 3 * v ->
  (Qabs (inject_Z u) <= (3 # 2) * inject_Z v)%Q.
Proof.
  intro H. apply Qabs_Qle_condition.
  cbv [Qle Qopp Qmult inject_Z Qnum Qden Pos.mul]. lia.
Qed.

Lemma quotient_close sx mx ex my ey m e n :
  0 < n -> ey <= 0 -> Zpos my = n * 2 ^ (- ey) ->
  (exists e' k,
     e' <= ex - ey /\ 0 <= k /\ e = e' + k
     /\ - (3 * (2 ^ k * Zpos my))
        <= 2 * (Zpos m * (2 ^ k * Zpos my) - Zpos mx * 2 ^ (ex - ey - e'))
        <= 3 * (2 ^ k * Zpos my)) ->
  (Qabs (inject_Z n * SFvalue (S754_finite sx m e)
         - SFvalue (S754_finite sx mx ex))
   <= (3 # 2) * inject_Z n * (2 # 1) ^ e)%Q.
Proof.
  intros Hn Hey Hmy [e' [k [He' [Hk [-> Hb]]]]].
  set (s := ex - ey - e') in *.
  assert (Hs : 0 <= s) by (unfold s; lia).
  set (a := ((2 # 1) ^ e')%Q). set (b := ((2 # 1) ^ ey)%Q).
  set (P := inject_Z (2 ^ k)). set (S := inject_Z (2 ^ s)).
  assert (Ha : (0 < a)%Q) by apply two_power_pos.
  assert (Hb' : (0 < b)%Q) by apply two_power_pos.
  assert (E1 : ((2 # 1) ^ (e' + k) == a * P)%Q).
  { rewrite two_power_add, (two_power_inject k Hk). reflexivity. }
  assert (E2 : ((2 # 1) ^ ex == S * b * a)%Q).
  { replace ex with (s + ey + e') by (unfold s; lia).
    rewrite !two_power_add, (two_power_inject s Hs). reflexivity. }
  assert (E3 : (inject_Z n == inject_Z (Zpos my) * b)%Q).
  { rewrite Hmy, inject_Z_mult, <- (two_power_inject (- ey)) by lia.
    unfold b. rewrite <- Qmult_assoc, <- two_power_add.
    replace (- ey + ey) with 0 by lia. simpl. ring. }
  unfold SFvalue. rewrite E1, E2, E3.
  set (Y := inject_Z (Z.pos my)). set (M := inject_Z (Z.pos m)).
  set (X := inject_Z (Z.pos mx)).
  setoid_replace
    (Y * b * ((if sx then - (1) else 1) * M * (a * P))
     - (if sx then - (1) else 1) * X * (S * b * a))%Q
    with ((if sx then - (1) else 1) * ((a * b) * (M * (P * Y) - X * S)))%Q by ring.
  rewrite Qabs_sign, Qabs_Qmult.
  assert (Hab : (0 < a * b)%Q).
  { rewrite <- (Qmult_0_l b). apply Qmult_lt_compat_r; assumption. }
  rewrite (Qabs_pos (a * b)) by (apply Qlt_le_weak; exact Hab).
  setoid_replace ((3 # 2) * (Y * b) * (a * P))%Q
    with ((a * b) * ((3 # 2) * (P * Y)))%Q by ring.
  apply Qmult_le_l; [exact Hab|].
  unfold M, P, Y, X, S, Qminus.
  rewrite <- !inject_Z_mult, <- inject_Z_opp, <- inject_Z_plus.
  apply inject_Z_close. lia.
Qed.

Lemma quotient_by_count_close (t : float) (n : Z) :
  0 < n < 2 ^ 53 ->
  finite_nonzero (t / of_uint63 (of_Z n))%float ->
  finite_nonzero t
  /\ (Qabs (inject_Z n * value (t / of_uint63 (of_Z n))%float - value t)
      <= (3 # 2) * inject_Z n * ulp_of (t / of_uint63 (of_Z n))%float)%Q.
Proof.
  intros Hn. unfold finite_nonzero, value, ulp_of. rewrite div_spec.
  unfold SF64div.
  destruct (of_uint63_exact n Hn) as [my [ey [-> [Hey Hmy]]]].
  destruct (Prim2SF t) as [s|s| |sx mx ex]; try (simpl; tauto).
  pose proof (SFdiv_close prec emax sx mx ex false my ey) as H.
  destruct (SFdiv prec emax (S754_finite sx mx ex) (S754_finite false my ey))
    as [| | |s m e]; try tauto.
  intros _. split; [exact I|].
  cbn beta iota in H. destruct H as [-> H]. rewrite xorb_false_r.
  apply (quotient_close sx mx ex my ey m e n); try assumption. lia.
Qed.

Lemma quotient_by_count_zero (t : float) (n : Z) (s : bool) :
  0 < n < 2 ^ 53 ->
  Prim2SF t = S754_zero s ->
  Prim2SF (t / of_uint63 (of_Z n))%float = S754_zero s.
Proof.
  intros Hn Ht. rewrite div_spec, Ht.
  destruct (of_uint63_exact n Hn) as [my [ey [-> _]]].
  simpl. now rewrite xorb_false_r.
Qed.

(** ** No NaN from the Cartesian basis *)








(** * The cells a load has been through, whatever its outcome *)

Section Prefix.

Variable R : Runtime.
Variable self : FluidParticleInitializer.

Abbreviation N := (Z.to_nat (nbrParticlePerCell_ self)).

(** Each loader is the loop of [load_cell] over the cells of its region. *)
Lemma loadParticles1D_body randSeed layout container :
  loadParticles1D_ R self randSeed layout container
  = for_each (cells 1 layout) (load_cell R self 1 layout)
      (entered R self container (mt19937_64 R 1)).
Proof.
  unfold loadParticles1D_. cbv zeta. run_references.
  unfold cells. rewrite for_each_map. reflexivity.
Qed.

Lemma loadParticles2D_body randSeed layout container :
  loadParticles2D_ R self randSeed layout container
  = for_each (cells 2 layout) (load_cell R self 2 layout)
      (entered R self container (mt19937_64 R randSeed)).
Proof.
  unfold loadParticles2D_. cbv zeta. run_references.
  unfold cells. rewrite for_each_flat_map.
  apply for_each_ext. intros ix s. rewrite for_each_map. reflexivity.
Qed.

Lemma loadParticles3D_body randSeed layout container :
  loadParticles3D_ R self randSeed layout container
  = for_each (cells 3 layout) (load_cell R self 3 layout)
      (entered R self container (mt19937_64 R randSeed)).
Proof.
  unfold loadParticles3D_. cbv zeta. run_references.
  unfold cells. rewrite for_each_flat_map.
  apply for_each_ext. intros ix s. rewrite for_each_flat_map.
  apply for_each_ext. intros iy s'. rewrite for_each_map. reflexivity.
Qed.

Lemma loadParticles_body randSeed layout container :
  (1 <= dimension layout <= 3)%nat ->
  loadParticles R self randSeed layout container
  = observed R
      (for_each (cells (dimension layout) layout)
         (load_cell R self (dimension layout) layout)
         (entered R self container
            (mt19937_64 R (generator_seed (dimension layout) randSeed)))).
Proof.
  intro H. unfold loadParticles.
  destruct (dimension layout) as [|[|[|[|n]]]]; try lia.
  - now rewrite loadParticles1D_body.
  - now rewrite loadParticles2D_body.
  - now rewrite loadParticles3D_body.
Qed.

Lemma cell_run_pushes_or_stops dim layout d bv tv cell (s : LoadState R) :
  density_ self = Some d ->
  bulkVelocity_ self = Some bv ->
  thermalVelocity_ self = Some tv ->
  let r := cell_run R self dim cell (center_args dim layout cell)
             (field_args dim layout cell) (cell_volume dim layout) d bv tv
             (magneticField_ self) s in
  (fst r = Normal tt
   /\ exists b, particles (snd r) = particles s ++ b
                /\ cell_batch R self dim layout cell b)
  \/ (fst r <> Normal tt /\ particles (snd r) = particles s).
Proof.
  intros Hd Hbv Htv. cbv zeta. unfold cell_run. cbv zeta.
  destruct (field_outcome R self (magneticField_ self)
              (field_args dim layout cell)) as [basis|e|p]; cbn [fst snd particles].
  - left. split; [reflexivity|]. eexists. split; [reflexivity|].
    exists d, bv, tv, basis, (gen s). auto.
  - right. split; [discriminate | reflexivity].
  - right. split; [discriminate | reflexivity].
Qed.

Ltac stops_at_null :=
  right; unfold load_cell1D, load_cell2D, load_cell3D, call, bind, log, lift,
    ret; cbn [fst snd particles]; split; [discriminate | reflexivity].

Lemma load_cell_pushes_or_stops dim layout cell (s : LoadState R) :
  (1 <= dim <= 3)%nat ->
  In cell (cells dim layout) ->
  pushes_or_stops (cell_batch R self dim layout) (load_cell R self dim layout)
    cell s.
Proof.
  intros Hdim Hin. unfold pushes_or_stops.
  destruct dim as [|[|[|[|n]]]]; try lia; unfold cells in Hin.
  - apply in_map_iff in Hin as [ix [<- _]]. cbn [load_cell nth].
    destruct (density_ self) as [d|] eqn:Hd; [|stops_at_null].
    destruct (bulkVelocity_ self) as [bv|] eqn:Hbv; [|stops_at_null].
    destruct (thermalVelocity_ self) as [tv|] eqn:Htv; [|stops_at_null].
    rewrite load_cell1D_run. cbv zeta.
    apply (cell_run_pushes_or_stops 1 layout d bv tv [ix] s Hd Hbv Htv).
  - apply in_flat_map in Hin as [ix [_ Hin]].
    apply in_map_iff in Hin as [iy [<- _]]. cbn [load_cell nth].
    destruct (density_ self) as [d|] eqn:Hd; [|stops_at_null].
    destruct (bulkVelocity_ self) as [bv|] eqn:Hbv; [|stops_at_null].
    destruct (thermalVelocity_ self) as [tv|] eqn:Htv; [|stops_at_null].
    rewrite load_cell2D_run. cbv zeta.
    apply (cell_run_pushes_or_stops 2 layout d bv tv [ix; iy] s Hd Hbv Htv).
  - apply in_flat_map in Hin as [ix [_ Hin]].
    apply in_flat_map in Hin as [iy [_ Hin]].
    apply in_map_iff in Hin as [iz [<- _]]. cbn [load_cell nth].
    destruct (density_ self) as [d|] eqn:Hd; [|stops_at_null].
    destruct (bulkVelocity_ self) as [bv|] eqn:Hbv; [|stops_at_null].
    destruct (thermalVelocity_ self) as [tv|] eqn:Htv; [|stops_at_null].
    rewrite load_cell3D_run. cbv zeta.
    apply (cell_run_pushes_or_stops 3 layout d bv tv [ix; iy; iz] s Hd Hbv Htv).
Qed.

Lemma for_each_prefix {A} (P : A -> list Particle -> Prop)
    (body : A -> Load R unit) (l : list A) :
  (forall x s, In x l -> pushes_or_stops P body x s) ->
  forall s,
  exists done rest batches,
    l = done ++ rest
    /\ particles (snd (for_each l body s)) = particles s ++ concat batches
    /\ Forall2 P done batches
    /\ (fst (for_each l body s) = Normal tt -> rest = []).
Proof.
  induction l as [|x l IH]; intros H s.
  - exists [], [], []. simpl. rewrite app_nil_r. repeat split. constructor.
  - destruct (H x s (or_introl eq_refl)) as [[En [b [Ep Pb]]] | [En Ep]].
    + destruct (IH (fun y s' Hy => H y s' (or_intror Hy)) (snd (body x s)))
        as (dn & rs & bs & El & Eps & F & Hn).
      exists (x :: dn), rs, (b :: bs). simpl. unfold bind.
      destruct (body x s) as [[[]|e|p] s'] eqn:E; simpl in En; try discriminate.
      simpl in Ep, Eps, Hn. rewrite Eps, Ep, <- app_assoc.
      repeat split; [now rewrite El | now constructor | exact Hn].
    + exists [], (x :: l), []. simpl. unfold bind.
      destruct (body x s) as [[[]|e|p] s'] eqn:E; simpl in En, Ep;
        [congruence| |]; simpl; rewrite app_nil_r;
        (repeat split; [exact Ep | constructor | discriminate]).
Qed.

(** Whatever the pointers of the initializer and however the load ends:
    the loops went through a prefix of the cells of the region, each of
    which pushed its batch, and a load that returns went through all. *)
Lemma loadParticles_prefix randSeed layout container :
  (1 <= dimension layout <= 3)%nat ->
  exists done rest batches,
    cells (dimension layout) layout = done ++ rest
    /\ snd (loadParticles R self randSeed layout container)
       = container ++ concat batches
    /\ Forall2 (cell_batch R self (dimension layout) layout) done batches
    /\ (fst (loadParticles R self randSeed layout container) = Normal tt ->
        rest = []).
Proof.
  intro Hdim. rewrite (loadParticles_body _ _ _ Hdim).
  destruct (for_each_prefix (cell_batch R self (dimension layout) layout)
              (load_cell R self (dimension layout) layout)
              (cells (dimension layout) layout)
              (fun x s Hx => load_cell_pushes_or_stops _ _ x s Hdim Hx)
              (entered R self container
                 (mt19937_64 R (generator_seed (dimension layout) randSeed))))
    as (dn & rs & bs & El & Eps & F & Hn).
  exists dn, rs, bs. auto.
Qed.




End Prefix.

Lemma exact_sum_repeat (l : list Particle) (w : double) (n : nat) :
  map weight l = repeat w n ->
  (exact_sum l == inject_Z (Z.of_nat n) * value w)%Q.
Proof.
  revert n; induction l as [|p l IH]; intros [|n] H; try discriminate.
  - simpl. ring.
  - simpl in H. injection H as Hp Hl. cbn [exact_sum].
    rewrite (IH n Hl), Hp, Nat2Z.inj_succ. unfold Z.succ.
    rewrite inject_Z_plus. ring.
Qed.

(** * The weights of a cell and their sum *)

(** C1: for every cell a load has been through, however the load ends, and
    for a count N > 0 of the type [uint32], the N particles pushed for the
    cell all carry the weight [density(cellCenter) * cellVolume / N] (the
    double that the division delivers), and the sum of these N weights,
    taken exactly, is [density(cellCenter) * cellVolume] to floating-point
    precision: when the weight is a finite non-zero double the two differ
    by at most 3/2 units in the last place of the weight per particle, and
    when [density(cellCenter) * cellVolume] is zero so is every weight. *)
Theorem C1_weights_and_their_sum
    (R : Runtime) (self : FluidParticleInitializer) (d : ScalarFunction)
    (randSeed : Z) (layout : GridLayout) (container : list Particle) :
  (1 <= dimension layout <= 3)%nat ->
  density_ self = Some d ->
  0 < nbrParticlePerCell_ self < 2 ^ 32 ->
  exists done rest batches,
    cells (dimension layout) layout = done ++ rest
    /\ snd (loadParticles R self randSeed layout container)
       = container ++ concat batches
    /\ (fst (loadParticles R self randSeed layout container) = Normal tt ->
        rest = [])
    /\ Forall2
         (fun cell batch =>
            let total :=
              (d (center_args (dimension layout) layout cell)
               * cell_volume (dimension layout) layout)%float in
            let w :=
              (total / double_of_uint32 (nbrParticlePerCell_ self))%float in
            map weight batch = repeat w (Z.to_nat (nbrParticlePerCell_ self))
            /\ (finite_nonzero w ->
                finite_nonzero total
                /\ (Qabs (exact_sum batch - value total)
                    <= (3 # 2) * inject_Z (nbrParticlePerCell_ self)
                       * ulp_of w)%Q)
            /\ (forall s, Prim2SF total = S754_zero s ->
                          Prim2SF w = S754_zero s))
         done batches.
Proof.
  intros Hdim Hd HN.
  destruct (loadParticles_prefix R self randSeed layout container Hdim)
    as (dn & rs & bs & El & Eps & F & Hn).
  exists dn, rs, bs. repeat split; try assumption.
  eapply Forall2_impl; [|exact F].
  intros cell b (d' & bv & tv & basis & g & Hd' & _ & _ & ->).
  rewrite Hd in Hd'. injection Hd' as <-. cbv zeta.
  assert (Hw : map weight
                 (batch R self (dimension layout)
                    (bv (center_args (dimension layout) layout cell))
                    (tv (center_args (dimension layout) layout cell)) basis
                    (cell_weight self
                       (d (center_args (dimension layout) layout cell))
                       (cell_volume (dimension layout) layout))
                    cell (Z.to_nat (nbrParticlePerCell_ self)) g)
               = repeat
                   (d (center_args (dimension layout) layout cell)
                    * cell_volume (dimension layout) layout
                    / double_of_uint32 (nbrParticlePerCell_ self))%float
                   (Z.to_nat (nbrParticlePerCell_ self)))
    by apply batch_weights.
  split; [exact Hw|]. split.
  - intro Hf. rewrite (exact_sum_repeat _ _ _ Hw), Z2Nat.id by lia.
    apply quotient_by_count_close; [lia | exact Hf].
  - intros s Hs. apply quotient_by_count_zero; [lia | exact Hs].
Qed.

Lemma C1_weights_and_their_sum_witness :
  let R := Sample.runtime in
  let self :=
    Sample.initializer 10%float 5 Cartesian
      (Some (Sample.uniformVector Sample.alongX)) in
  let d := Sample.uniformDensity 10%float in
  let layout := Sample.layout 1 4 in
  exists done rest batches,
    cells (dimension layout) layout = done ++ rest
    /\ snd (loadParticles R self 0 layout []) = [] ++ concat batches
    /\ (fst (loadParticles R self 0 layout []) = Normal tt -> rest = [])
    /\ Forall2
         (fun cell batch =>
            let total :=
              (d (center_args (dimension layout) layout cell)
               * cell_volume (dimension layout) layout)%float in
            let w :=
              (total / double_of_uint32 (nbrParticlePerCell_ self))%float in
            map weight batch = repeat w (Z.to_nat (nbrParticlePerCell_ self))
            /\ (finite_nonzero w ->
                finite_nonzero total
                /\ (Qabs (exact_sum batch - value total)
                    <= (3 # 2) * inject_Z (nbrParticlePerCell_ self)
                       * ulp_of w)%Q)
            /\ (forall s, Prim2SF total = S754_zero s ->
                          Prim2SF w = S754_zero s))
         done batches.
Proof.
  apply (C1_weights_and_their_sum Sample.runtime
           (Sample.initializer 10%float 5 Cartesian
              (Some (Sample.uniformVector Sample.alongX)))
           (Sample.uniformDensity 10%float) 0 (Sample.layout 1 4) []).
  - simpl; lia.
  - reflexivity.
  - simpl; lia.
Defined.

(** * Zero particles per cell *)




(** * The degenerate field *)





(** * An empty region, a Cartesian load *)

(** X3: an empty region. When the loop of one of the directions of the
    layout visits no index, a load whose four profile pointers are not null
    returns normally and leaves the container as it was: no cell body
    runs. *)
Theorem X3_empty_region
    (R : Runtime) (self : FluidParticleInitializer)
    (d : ScalarFunction) (bv tv f : VectorFunction)
    (randSeed : Z) (layout : GridLayout) (container : list Particle) :
  density_ self = Some d ->
  bulkVelocity_ self = Some bv ->
  thermalVelocity_ self = Some tv ->
  magneticField_ self = Some f ->
  (extent layout dirX = 0
   \/ (2 <= dimension layout /\ extent layout dirY = 0)
   \/ (3 <= dimension layout /\ extent layout dirZ = 0))%nat ->
  loadParticles R self randSeed layout container = (Normal tt, container).
Proof.
  intros _ _ _ _ H. unfold loadParticles.
  destruct (dimension layout) as [|[|[|[|n]]]]; try reflexivity.
  - destruct H as [H|[[H _]|[H _]]]; try lia.
    unfold loadParticles1D_. cbv zeta. run_references.
    fold (physical_range layout dirX).
    rewrite (physical_range_empty _ _ H). reflexivity.
  - unfold loadParticles2D_. cbv zeta. run_references.
    fold (physical_range layout dirX). fold (physical_range layout dirY).
    destruct H as [H|[[_ H]|[H _]]]; try lia.
    + rewrite (physical_range_empty _ _ H). reflexivity.
    + rewrite (physical_range_empty _ _ H).
      rewrite for_each_skip; [reflexivity|]. intros. reflexivity.
  - unfold loadParticles3D_. cbv zeta. run_references.
    fold (physical_range layout dirX). fold (physical_range layout dirY).
    fold (physical_range layout dirZ).
    destruct H as [H|[[_ H]|[_ H]]].
    + rewrite (physical_range_empty _ _ H). reflexivity.
    + rewrite (physical_range_empty _ _ H).
      rewrite for_each_skip; [reflexivity|]. intros. reflexivity.
    + rewrite (physical_range_empty _ _ H).
      rewrite for_each_skip; [reflexivity|]. intros.
      rewrite for_each_skip; [reflexivity|]. intros. reflexivity.
Qed.

Lemma X3_empty_region_witness :
  loadParticles Sample.runtime
    (Sample.initializer 10%float 5 Magnetic
       (Some (Sample.uniformVector Sample.alongX)))
    0 (Sample.layout 2 0) []
  = (Normal tt, []).
Proof.
  apply (X3_empty_region Sample.runtime
           (Sample.initializer 10%float 5 Magnetic
              (Some (Sample.uniformVector Sample.alongX)))
           (Sample.uniformDensity 10%float)
           (Sample.uniformVector Sample.alongX)
           (Sample.uniformVector Sample.still)
           (Sample.uniformVector Sample.alongX) 0 (Sample.layout 2 0) []);
    try reflexivity.
  left. reflexivity.
Defined.

(** X10: the Cartesian basis does not look at the magnetic field. With the
    Cartesian basis and a magnetic-field pointer that is not null, no
    loader ever calls the magnetic-field profile, and the load gives the
    same result whichever field the pointer designates. *)
Theorem X10_cartesian_ignores_field
    (R : Runtime) (self : FluidParticleInitializer)
    (d : ScalarFunction) (bv tv f : VectorFunction)
    (randSeed : Z) (layout : GridLayout) (container : list Particle) :
  density_ self = Some d ->
  bulkVelocity_ self = Some bv ->
  thermalVelocity_ self = Some tv ->
  magneticField_ self = Some f ->
  basis_ self = Cartesian ->
  (forall f' : VectorFunction,
     loadParticles R (with_field self (Some f')) randSeed layout container
     = loadParticles R self randSeed layout container)
  /\ evaluations MagneticField
       (trace (snd (loadParticles1D_ R self randSeed layout container))) = []
  /\ evaluations MagneticField
       (trace (snd (loadParticles2D_ R self randSeed layout container))) = []
  /\ evaluations MagneticField
       (trace (snd (loadParticles3D_ R self randSeed layout container))) = [].
Proof.
  intros Hd Hbv Htv _ HC.
  assert (Hmf : field_ok R self (magneticField_ self)) by (left; exact HC).
  split.
  - intro f'.
    assert (Hmf' : field_ok R (with_field self (Some f'))
                     (magneticField_ (with_field self (Some f'))))
      by (left; exact HC).
    destruct (le_lt_dec 1 (dimension layout)) as [H1|H1];
      [destruct (le_lt_dec (dimension layout) 3) as [H3|H3]|].
    + rewrite (loadParticles_run R self d bv tv Hd Hbv Htv Hmf) by lia.
      rewrite (loadParticles_run R (with_field self (Some f')) d bv tv
                 Hd Hbv Htv Hmf') by lia.
      simpl magneticField_.
      now rewrite (region_particles_with_field R self (Some f') HC
                     _ _ _ _ _ (magneticField_ self)).
    + unfold loadParticles.
      destruct (dimension layout) as [|[|[|[|n]]]]; try lia. reflexivity.
    + unfold loadParticles.
      destruct (dimension layout) as [|n]; try lia. reflexivity.
  - rewrite (loadParticles1D_run R self d bv tv Hd Hbv Htv Hmf).
    rewrite (loadParticles2D_run R self d bv tv Hd Hbv Htv Hmf).
    rewrite (loadParticles3D_run R self d bv tv Hd Hbv Htv Hmf).
    cbn [snd]. rewrite !evaluations_loaded_field, HC. simpl.
    repeat split; reflexivity.
Qed.

Lemma X10_cartesian_ignores_field_witness :
  let self :=
    Sample.initializer 10%float 5 Cartesian
      (Some (Sample.uniformVector Sample.alongX)) in
  (forall f' : VectorFunction,
     loadParticles Sample.runtime (with_field self (Some f')) 0
       (Sample.layout 2 2) []
     = loadParticles Sample.runtime self 0 (Sample.layout 2 2) [])
  /\ evaluations MagneticField
       (trace (snd (loadParticles1D_ Sample.runtime self 0
                      (Sample.layout 2 2) []))) = []
  /\ evaluations MagneticField
       (trace (snd (loadParticles2D_ Sample.runtime self 0
                      (Sample.layout 2 2) []))) = []
  /\ evaluations MagneticField
       (trace (snd (loadParticles3D_ Sample.runtime self 0
                      (Sample.layout 2 2) []))) = [].
Proof.
  apply (X10_cartesian_ignores_field Sample.runtime
           (Sample.initializer 10%float 5 Cartesian
              (Some (Sample.uniformVector Sample.alongX)))
           (Sample.uniformDensity 10%float)
           (Sample.uniformVector Sample.alongX)
           (Sample.uniformVector Sample.still)
           (Sample.uniformVector Sample.alongX) 0 (Sample.layout 2 2) []);
    reflexivity.
Defined.
